(** * Verification of the cosmic scene widget

    A shallow embedding of [components/cosmic-ascii-scene.tsx] and of the
    scene navigation of [app/page.tsx], with the properties of the
    repository's specification stated and proved over it.

    Number model.  JavaScript numbers are IEEE 754 binary64 values.
    - Integers that the code keeps integral (hashes, millisecond clocks,
      indices, colour channels) are [Z], with the 32-bit wrap-around of the
      bit operators written out ([ToInt32]).
    - The fields of a style variant and the arithmetic of the dithering pass
      are computed on Rocq's primitive binary64 floats, which round as
      JavaScript does.
    - Particle coordinates, the transition progress and the weather code are
      exact rationals ([Q]): every finite binary64 value is one, and the
      statements about them are order statements. *)

From Stdlib Require Import ZArith QArith Qround Qabs Qminmax Lqa.
From Stdlib Require Import Floats Uint63 Lia Bool Sorted.
From Stdlib Require Import Strings.String Strings.Ascii.
From stdpp Require Import base list gmap strings.

#[local] Set Warnings "-inexact-float".
#[local] Open Scope Z_scope.

(** ** JavaScript primitives *)

Module JS.

(** [ToInt32] of ECMAScript on an integral number: reduce modulo 2^32 into
    the signed range. *)
Definition ToInt32 (z : Z) : Z := (z + 2 ^ 31) mod 2 ^ 32 - 2 ^ 31.

(** [a << n], [a >> n], [a & b] and [a | 0] on integral numbers. *)
Definition shl (a n : Z) : Z := ToInt32 (Z.shiftl (ToInt32 a) n).
Definition sar (a n : Z) : Z := Z.shiftr (ToInt32 a) n.
Definition band (a b : Z) : Z := ToInt32 (Z.land (ToInt32 a) (ToInt32 b)).
Definition bor0 (a : Z) : Z := ToInt32 a.

(** A string is its sequence of UTF-16 code units; [charCodeAt] reads one. *)
Definition jsstring := list Z.

Definition lit (s : string) : jsstring :=
  (λ a, Z.of_nat (nat_of_ascii a)) <$> list_ascii_of_string s.

(** A string is falsy exactly when it is empty. *)
Definition truthy (s : jsstring) : bool :=
  match s with [] => false | _ => true end.

(** [a || b] on strings. *)
Definition or_else (a b : jsstring) : jsstring := if truthy a then a else b.

(** [l[i]] for an integral index: [None] is [undefined]. *)
Definition index {A} (l : list A) (i : Z) : option A :=
  if 0 <=? i then l !! Z.to_nat i else None.

(** [a % b] on integral numbers with [b ≠ 0] keeps the sign of [a]. *)
Definition rem (a b : Z) : Z := Z.rem a b.

(** An integer below 2^53 as a binary64 value (exact). *)
Definition num (z : Z) : float :=
  if 0 <=? z then of_uint63 (Uint63.of_Z z)
  else PrimFloat.opp (of_uint63 (Uint63.of_Z (- z))).

(** The exact value of a finite binary64 number, as a rational. *)
Definition exact (x : float) : Q :=
  match Prim2SF x with
  | S754_finite s m e =>
      let n := if s then Z.neg m else Z.pos m in
      if 0 <=? e then inject_Z (n * 2 ^ e) else Qmake n (2 ^ Z.to_pos (- e))
  | _ => 0%Q
  end.

(** [Math.floor] of a finite number, as an integer. *)
Definition floor (x : float) : Z := Qfloor (exact x).

Definition is_finite (x : float) : bool :=
  match Prim2SF x with
  | S754_finite _ _ _ | S754_zero _ => true
  | _ => false
  end.

Definition PI : float := 0x1.921fb54442d18p+1%float.

End JS.

(** ** Style variants *)

Module Style.
Import JS.

Inductive BaseStyle :=
  drift | swirl | pulse | twinkle | wave | orbit | flare | ripple.

#[global] Instance BaseStyle_eq_dec : EqDecision BaseStyle.
Proof. solve_decision. Defined.

Record StyleVariant := {
  baseStyle : option BaseStyle;
  speedMultiplier : float;
  densityMultiplier : float;
  intensity : float;
  oscillationPhase : float;
  distortion : float;
  seed : Z
}.

Definition BASE_STYLES : list BaseStyle :=
  [drift; swirl; pulse; twinkle; wave; orbit; flare; ripple].

Definition TYPE_STYLE_BIAS_entries : list (string * list BaseStyle) :=
  [ ("blackhole", [swirl; ripple; flare]);
    ("sun", [pulse; flare; wave]);
    ("star", [twinkle; pulse; wave]);
    ("pulsar", [pulse; flare]);
    ("nebula", [wave; ripple; drift]);
    ("galaxy", [swirl; drift; ripple]);
    ("cluster", [twinkle; pulse; ripple]);
    ("quasar", [flare; swirl; pulse]);
    ("supernova", [flare; wave; pulse]);
    ("exoplanet", [orbit; drift; wave]);
    ("rings", [orbit; ripple; drift]);
    ("comet", [drift; ripple; flare]);
    ("meteoroid", [drift; flare; wave]);
    ("asteroid", [drift; orbit; ripple]);
    ("moon", [orbit; twinkle; wave]);
    ("cloud", [ripple; wave; drift]);
    ("structure", [swirl; ripple; drift]);
    ("stream", [wave; drift; ripple]);
    ("rogueplanet", [orbit; drift; pulse]);
    ("phenomena", [flare; wave; pulse]);
    ("wave", [wave; ripple; drift]);
    ("magnetar", [pulse; flare; swirl]);
    ("burst", [flare; pulse; wave]);
    ("core", [swirl; pulse; flare]);
    ("background", [ripple; drift; wave]);
    ("halo", [ripple; swirl; orbit]);
    ("browndwarf", [pulse; flare; twinkle]);
    ("void", [drift; ripple; swirl]);
    ("boundary", [wave; ripple; flare]);
    ("belt", [orbit; drift; ripple]);
    ("dwarfplanet", [orbit; pulse; drift]);
    ("supercluster", [swirl; twinkle; ripple]);
    ("frb", [flare; pulse; twinkle]) ]%string.

(** The own properties of the object literal [TYPE_STYLE_BIAS]. *)
Definition TYPE_STYLE_BIAS : gmap jsstring (list BaseStyle) :=
  list_to_map (prod_map lit id <$> TYPE_STYLE_BIAS_entries).

(** [TYPE_STYLE_BIAS] is an ordinary object, so a property read that finds
    no own property continues on [Object.prototype].  These are its
    property names (ECMAScript 20.1.3 and B.2.2). *)
Definition OBJECT_PROTOTYPE_KEYS : list jsstring :=
  lit <$> [ "constructor"; "hasOwnProperty"; "isPrototypeOf";
            "propertyIsEnumerable"; "toLocaleString"; "toString"; "valueOf";
            "__proto__"; "__defineGetter__"; "__defineSetter__";
            "__lookupGetter__"; "__lookupSetter__" ]%string.

(** The value of [TYPE_STYLE_BIAS[entityType]]: a declared bias list, a value
    inherited from the prototype (a function or the prototype object, none of
    which has indexed elements), or [undefined]. *)
Inductive bias_value :=
  | Declared (l : list BaseStyle)
  | Inherited
  | Undefined.

Definition bias_lookup (entityType : jsstring) : bias_value :=
  match TYPE_STYLE_BIAS !! entityType with
  | Some l => Declared l
  | None =>
      if bool_decide (entityType ∈ OBJECT_PROTOTYPE_KEYS) then Inherited
      else Undefined
  end.

Definition hash_step (hash c : Z) : Z :=
  bor0 (shl hash 5 - hash + c).

Definition hashString (value : jsstring) : Z :=
  fold_left hash_step value 0.

(** The [take] closure of [getStyleVariant]. *)
Definition take (hash shift mask : Z) : float :=
  (num (band (sar hash shift) mask) / num mask)%float.

(** [bias[hash % bias.length]] for the three kinds of [bias]. *)
Definition pick (bias : bias_value) (hash : Z) : option BaseStyle :=
  match bias with
  | Declared l => index l (rem hash (Z.of_nat (length l)))
  | Undefined => index BASE_STYLES (rem hash (Z.of_nat (length BASE_STYLES)))
  | Inherited => None
  end.

Definition getStyleVariant (animationStyle entityType : jsstring)
  : StyleVariant :=
  let hash :=
    Z.abs (hashString (or_else (or_else animationStyle entityType)
                                (lit "cosmic"))) in
  let baseStyle := pick (bias_lookup entityType) hash in
  {| baseStyle := baseStyle;
     speedMultiplier := (0.6 + take hash 2 0xff * 2.2)%float;
     densityMultiplier := (0.7 + take hash 10 0xff * 2.5)%float;
     intensity := (0.5 + take hash 18 0xff * 1.5)%float;
     oscillationPhase := (take hash 24 0xff * PI * 2)%float;
     distortion := take hash 5 0x3f;
     seed := hash |}.

(** The hash as the specification words it: start at 0; for each character
    in order multiply the running hash by 31, add the character code, and
    truncate to a signed 32-bit integer. *)
Definition rolling_hash (s : jsstring) : Z :=
  fold_left (λ h c, ToInt32 (31 * h + c)) s 0.

(** The numeric fields of a variant, as functions of the bits taken from the
    hash. *)
Definition unit_of (k mask : Z) : float := (num k / num mask)%float.
Definition speed_of (k : Z) : float := (0.6 + unit_of k 255 * 2.2)%float.
Definition density_of (k : Z) : float := (0.7 + unit_of k 255 * 2.5)%float.
Definition intensity_of (k : Z) : float := (0.5 + unit_of k 255 * 1.5)%float.
Definition phase_of (k : Z) : float := (unit_of k 255 * PI * 2)%float.

(** Whether two numbers are finite and equal, as [===] compares them. *)
Definition same_number (a b : float) : bool :=
  is_finite a && is_finite b && (a =? b)%float.

Definition byte_fields_ok (k : Z) : bool :=
  same_number (speed_of k) (speed_of k)
  && same_number (density_of k) (density_of k)
  && same_number (intensity_of k) (intensity_of k)
  && same_number (phase_of k) (phase_of k).

Definition six_bit_field_ok (k : Z) : bool :=
  same_number (unit_of k 63) (unit_of k 63).

End Style.

(** ** The entity catalog *)

Module Catalog.
Import JS.

Record Palette := {
  primary : jsstring;
  secondary : jsstring;
  accent : jsstring
}.

Record CosmicEntity := {
  id : Z;
  name : jsstring;
  type : jsstring;
  colorPalette : Palette;
  animationStyle : jsstring;
  duration : Z
}.

(** A palette for the examples. *)
Definition sample_palette : Palette :=
  {| primary := lit "#ffffff"; secondary := lit "#88aaff";
     accent := lit "#ffcc00" |}.

End Catalog.

(** ** Scene advancement (auto-play) *)

Module Playback.
Import JS Catalog.

(** The component state that [checkSceneChange] reads and writes: four
    [useState] cells and the [lastSceneChangeRef] clock. *)
Record PlaybackState := {
  currentEntityIndex : Z;
  nextEntityIndex : Z;
  transitionProgress : Q;
  isTransitioning : bool;
  lastSceneChange : Z
}.

(** The state at mount, [t0] being [Date.now()] at that moment. *)
Definition mount (t0 : Z) : PlaybackState :=
  {| currentEntityIndex := 0;
     nextEntityIndex := 1;
     transitionProgress := 0;
     isTransitioning := false;
     lastSceneChange := t0 |}.

Definition transitionDuration : Z := 1000.

Section Machine.

(** The catalog comes from [data/cosmic-entities.json]. *)
Variable COSMIC_ENTITIES : list CosmicEntity.

(** One run of the interval callback at time [now].  Reading [duration]
    off a missing entity throws: [None]. *)
Definition checkSceneChange (now : Z) (s : PlaybackState)
  : option PlaybackState :=
  let elapsed := now - lastSceneChange s in
  currentEntity ← index COSMIC_ENTITIES (currentEntityIndex s);
  if duration currentEntity + transitionDuration <=? elapsed then
    Some {| currentEntityIndex := nextEntityIndex s;
            nextEntityIndex :=
              rem (nextEntityIndex s + 1) (Z.of_nat (length COSMIC_ENTITIES));
            transitionProgress := 0;
            isTransitioning := false;
            lastSceneChange := now |}
  else if (duration currentEntity <=? elapsed)
          && negb (isTransitioning s) then
    Some {| currentEntityIndex := currentEntityIndex s;
            nextEntityIndex := nextEntityIndex s;
            transitionProgress := transitionProgress s;
            isTransitioning := true;
            lastSceneChange := lastSceneChange s |}
  else if isTransitioning s then
    let transitionElapsed := elapsed - duration currentEntity in
    Some {| currentEntityIndex := currentEntityIndex s;
            nextEntityIndex := nextEntityIndex s;
            transitionProgress :=
              (inject_Z transitionElapsed / inject_Z transitionDuration)%Q;
            isTransitioning := true;
            lastSceneChange := lastSceneChange s |}
  else Some s.

(** The interval callback run at each of the given times, in order. *)
Fixpoint run (ticks : list Z) (s : PlaybackState) : option PlaybackState :=
  match ticks with
  | [] => Some s
  | now :: rest => s' ← checkSceneChange now s; run rest s'
  end.

(** The states after each tick, the starting state first. *)
Fixpoint trace (ticks : list Z) (s : PlaybackState) : list PlaybackState :=
  s :: match ticks with
       | [] => []
       | now :: rest =>
           match checkSceneChange now s with
           | Some s' => trace rest s'
           | None => []
           end
       end.

(** [COSMIC_ENTITIES.length]. *)
#[local] Abbreviation entityCount := (Z.of_nat (length COSMIC_ENTITIES)).

(** The indices stay inside the catalog, the next index being the successor
    of the current one. *)
Definition indices_ok (s : PlaybackState) : Prop :=
  0 ≤ currentEntityIndex s < entityCount
  ∧ nextEntityIndex s = (currentEntityIndex s + 1) mod entityCount.

(** What is known of the progress once the tick at time [tp] has run. *)
Definition progress_ok (tp : Z) (s : PlaybackState) : Prop :=
  ∀ e, COSMIC_ENTITIES !! Z.to_nat (currentEntityIndex s) = Some e →
    if isTransitioning s then
      (0 <= transitionProgress s)%Q
      ∧ (transitionProgress s
         <= inject_Z (tp - lastSceneChange s - duration e) / inject_Z 1000)%Q
      ∧ tp - lastSceneChange s < duration e + 1000
    else transitionProgress s = 0%Q.

(** The four outcomes of one tick. *)
Inductive outcome (now : Z) (s s' : PlaybackState) : Prop :=
  | Commit e :
      COSMIC_ENTITIES !! Z.to_nat (currentEntityIndex s) = Some e →
      duration e + 1000 ≤ now - lastSceneChange s →
      s' = {| currentEntityIndex := nextEntityIndex s;
              nextEntityIndex := (nextEntityIndex s + 1) mod entityCount;
              transitionProgress := 0;
              isTransitioning := false;
              lastSceneChange := now |} →
      outcome now s s'
  | Start e :
      COSMIC_ENTITIES !! Z.to_nat (currentEntityIndex s) = Some e →
      duration e ≤ now - lastSceneChange s < duration e + 1000 →
      isTransitioning s = false →
      s' = {| currentEntityIndex := currentEntityIndex s;
              nextEntityIndex := nextEntityIndex s;
              transitionProgress := transitionProgress s;
              isTransitioning := true;
              lastSceneChange := lastSceneChange s |} →
      outcome now s s'
  | Fade e :
      COSMIC_ENTITIES !! Z.to_nat (currentEntityIndex s) = Some e →
      now - lastSceneChange s < duration e + 1000 →
      isTransitioning s = true →
      s' = {| currentEntityIndex := currentEntityIndex s;
              nextEntityIndex := nextEntityIndex s;
              transitionProgress :=
                (inject_Z (now - lastSceneChange s - duration e)
                 / inject_Z 1000)%Q;
              isTransitioning := true;
              lastSceneChange := lastSceneChange s |} →
      outcome now s s'
  | Idle e :
      COSMIC_ENTITIES !! Z.to_nat (currentEntityIndex s) = Some e →
      now - lastSceneChange s < duration e →
      isTransitioning s = false →
      s' = s →
      outcome now s s'.

(** A step that respects catalog order and the progress of the cross-fade:
    either the entity stays and the progress does not decrease, or the
    entity becomes its successor in the catalog and the progress is 0. *)
Definition follows (s s' : PlaybackState) : Prop :=
  (currentEntityIndex s' = currentEntityIndex s
   ∧ (transitionProgress s <= transitionProgress s')%Q)
  ∨ (currentEntityIndex s' = (currentEntityIndex s + 1) mod entityCount
     ∧ transitionProgress s' = 0%Q
     ∧ isTransitioning s' = false).

End Machine.

(** Ticks at the multiples of 16 ms with index in [lo, hi). *)
Definition every16 (lo hi : nat) : list Z :=
  (λ i, 16 * Z.of_nat i) <$> seq lo (hi - lo).

(** The catalog of the end-to-end scenario: three entities that differ in
    their durations. *)
Definition scenario_entity (d : Z) : CosmicEntity :=
  {| id := 0;
     name := lit "Entity";
     type := lit "star";
     colorPalette := sample_palette;
     animationStyle := lit "twinkle";
     duration := d |}.

Definition scenario_catalog : list CosmicEntity :=
  scenario_entity <$> [2000; 3000; 4000].

End Playback.

(** ** Scene selection in the page and in [render] *)

Module Host.
Import JS.

(** The two [useState] cells of [ResumePage]. *)
Record PageState := {
  isInteractiveMode : bool;
  manualScene : Z
}.

Definition initial : PageState :=
  {| isInteractiveMode := false; manualScene := 0 |}.

(** The three buttons; the two navigation buttons are only rendered in
    interactive mode. *)
Inductive Click := ToggleMode | PreviousScene | NextScene.

Definition click (totalEntities : Z) (c : Click) (p : PageState) : PageState :=
  match c with
  | ToggleMode =>
      {| isInteractiveMode := negb (isInteractiveMode p);
         manualScene := manualScene p |}
  | PreviousScene =>
      if isInteractiveMode p then
        {| isInteractiveMode := true;
           manualScene :=
             rem (manualScene p - 1 + totalEntities) totalEntities |}
      else p
  | NextScene =>
      if isInteractiveMode p then
        {| isInteractiveMode := true;
           manualScene := rem (manualScene p + 1) totalEntities |}
      else p
  end.

Definition clicks (totalEntities : Z) (cs : list Click) (p : PageState)
  : PageState :=
  fold_left (λ q c, click totalEntities c q) cs p.

(** [activeEntityIndex] of [render]. *)
Definition activeEntityIndex (entityCount : Z) (isInteractiveMode : bool)
    (manualScene currentEntityIndex : Z) : Z :=
  if isInteractiveMode then rem manualScene entityCount
  else currentEntityIndex.

(** Whether [render] draws the two cross-faded scenes. *)
Definition crossFades (isInteractiveMode isTransitioning : bool) : bool :=
  isTransitioning && negb isInteractiveMode.

(** What the scene-advance effect does at a tick: in interactive mode it
    returns before installing the interval, so nothing runs. *)
Definition sceneEffect (entities : list Catalog.CosmicEntity)
    (isInteractiveMode : bool) (now : Z) (s : Playback.PlaybackState)
  : option Playback.PlaybackState :=
  if isInteractiveMode then Some s
  else Playback.checkSceneChange entities now s.

End Host.

(** ** Weather label *)

Module Weather.

(** The code is a number read from JSON, hence finite. *)
Definition getWeatherText (weatherCode : Q) : string :=
  if Qeq_bool weatherCode 0 then "CLEAR"
  else if Qle_bool 1 weatherCode && Qle_bool weatherCode 3 then "CLOUDY"
  else if Qle_bool 45 weatherCode && Qle_bool weatherCode 48 then "FOGGY"
  else if Qle_bool 51 weatherCode && Qle_bool weatherCode 67 then "RAINY"
  else if Qle_bool 71 weatherCode && Qle_bool weatherCode 77 then "SNOWY"
  else if Qle_bool 80 weatherCode && Qle_bool weatherCode 99 then "STORMY"
  else "UNKNOWN".

End Weather.

(** ** Particles *)

Module Particles.
Import JS Style Catalog.

Record Particle := {
  x : Q;
  y : Q;
  vx : Q;
  vy : Q;
  life : Q;
  maxLife : Q;
  char : option string;
  color : option jsstring
}.

(** Computations that call [Math.random]: the state is the number of calls
    made so far. *)
Definition Draw (A : Type) : Type := nat → A * nat.

#[global] Instance Draw_ret : MRet Draw := λ A a n, (a, n).
#[global] Instance Draw_bind : MBind Draw :=
  λ A B k m n, let '(a, n') := m n in k a n'.

Definition Qltb (a b : Q) : bool := negb (Qle_bool b a).

Section Random.

(** The successive results of [Math.random], and [Math.sin]. *)
Variable random : nat → Q.
Variable sin : Q → Q.

Definition Math_random : Draw Q := λ n, (random n, S n).

Definition createParticle (width height : Q) (variant : option StyleVariant)
    (colors : option Palette) : Draw Particle :=
  seed ← match variant with
         | Some v => mret (inject_Z (seed v))
         | None => r ← Math_random; mret (r * 1000)%Q
         end;
  let charSet :=
    match variant with
    | Some _ => ["·"; "∙"; "•"; "○"; "✶"; "✷"; "✸"; "✹"; "✺"; "✻"]%string
    | None => ["·"; "∙"; "•"; "○"]%string
    end in
  let n := Z.of_nat (length charSet) in
  r ← Math_random;
  let char :=
    index charSet (rem (Z.abs (Qfloor seed + Qfloor (r * inject_Z n))) n) in
  let palette :=
    match colors with
    | Some c => [primary c; secondary c; accent c]
    | None => [lit "#FFFFFF"]
    end in
  let color :=
    index palette
      (rem (Z.abs (Qfloor (seed / 3))) (Z.of_nat (length palette))) in
  rx ← Math_random;
  ry ← Math_random;
  rvx ← Math_random;
  rvy ← Math_random;
  rlife ← Math_random;
  mret {| x := rx * width;
          y := ry * height;
          vx := (rvx - 0.5) * 0.5;
          vy := (rvy - 0.5) * 0.5;
          life := rlife * 100;
          maxLife := 100;
          char := char;
          color := color |}%Q.

(** [targetParticleCount] of [renderEntity], for a finite density. *)
Definition targetParticleCount (variant : StyleVariant) : Z :=
  Z.max 40 (floor (90 * densityMultiplier variant)%float).

(** [while (particles.length < target) particles.push(createParticle(..))].
    Every iteration adds one particle, so [fuel] iterations suffice when
    [fuel] is at least the target. *)
Fixpoint pushWhile (fuel : nat) (target : Z) (width height : Q)
    (variant : StyleVariant) (colors : Palette) (particles : list Particle)
  : Draw (list Particle) :=
  match fuel with
  | O => mret particles
  | S fuel' =>
      if Z.of_nat (length particles) <? target then
        p ← createParticle width height (Some variant) (Some colors);
        pushWhile fuel' target width height variant colors (particles ++ [p])
      else mret particles
  end.

(** [while (particles.length > target) particles.pop()]. *)
Fixpoint popWhile (fuel : nat) (target : Z) (particles : list Particle)
  : list Particle :=
  match fuel with
  | O => particles
  | S fuel' =>
      if target <? Z.of_nat (length particles) then
        popWhile fuel' target (removelast particles)
      else particles
  end.

(** The pool adjustment that opens [renderEntity]. *)
Definition adjustPool (width height : Q) (variant : StyleVariant)
    (colors : Palette) (particles : list Particle) : Draw (list Particle) :=
  let targetParticleCount := targetParticleCount variant in
  grown ← pushWhile (Z.to_nat targetParticleCount) targetParticleCount
            width height variant colors particles;
  mret (popWhile (length grown) targetParticleCount grown).

(** The three assignments that open the [forEach] callback. *)
Definition advance (variant : StyleVariant) (p : Particle) : Particle :=
  let speedFactor := exact (0.4 * speedMultiplier variant)%float in
  {| x := x p + vx p * speedFactor;
     y := y p + vy p * speedFactor;
     vx := vx p;
     vy := vy p;
     life := life p - exact (0.4 + intensity variant * 0.2)%float;
     maxLife := maxLife p;
     char := char p;
     color := color p |}%Q.

(** The condition of the [if]. *)
Definition expired (width height : Q) (p : Particle) : bool :=
  Qle_bool (life p) 0 || Qltb (x p) 0 || Qltb width (x p)
  || Qltb (y p) 0 || Qltb height (y p).

Definition respawn (width height : Q) (colors : Palette)
    (variant : StyleVariant) (p : Particle) : Draw Particle :=
  rx ← Math_random;
  ry ← Math_random;
  let life' := maxLife p in
  let palette := [primary colors; secondary colors; accent colors] in
  let n := Z.of_nat (length palette) in
  let offset :=
    (Qabs (sin (inject_Z (seed variant) + life')) * inject_Z n)%Q in
  let color' := index palette (rem (Qfloor offset) n) in
  rvx ← Math_random;
  rvy ← Math_random;
  mret {| x := rx * width;
          y := ry * height;
          vx := (rvx - 0.5) * exact (speedMultiplier variant);
          vy := (rvy - 0.5) * exact (speedMultiplier variant);
          life := life';
          maxLife := maxLife p;
          char := char p;
          color := color' |}%Q.

Definition updateParticle (width height : Q) (colors : Palette)
    (variant : StyleVariant) (p : Particle) : Draw Particle :=
  let p := advance variant p in
  if expired width height p then respawn width height colors variant p
  else mret p.

(** [particles.forEach], the callback mutating each element in place. *)
Fixpoint forEach (f : Particle → Draw Particle) (particles : list Particle)
  : Draw (list Particle) :=
  match particles with
  | [] => mret []
  | p :: rest => p' ← f p; rest' ← forEach f rest; mret (p' :: rest')
  end.

Definition updateParticles (particles : list Particle) (width height : Q)
    (colors : Palette) (variant : StyleVariant) : Draw (list Particle) :=
  forEach (updateParticle width height colors variant) particles.

(** A particle that [updateParticles] may receive, and one it gives back. *)
Definition alive_before (p : Particle) : Prop :=
  (life p <= maxLife p)%Q ∧ (0 < maxLife p)%Q.

Definition alive_inside (width height : Q) (p : Particle) : Prop :=
  (0 < life p)%Q ∧ (life p <= maxLife p)%Q
  ∧ (0 <= x p)%Q ∧ (x p <= width)%Q
  ∧ (0 <= y p)%Q ∧ (y p <= height)%Q.

(** How [updateParticles] relates a particle to its updated self. *)
Definition updated (width height : Q) (colors : Palette)
    (variant : StyleVariant) (p p' : Particle) : Prop :=
  maxLife p' = maxLife p
  ∧ char p' = char p
  ∧ if expired width height (advance variant p) then
      life p' = maxLife p
      ∧ (∃ i j, x p' = (random i * width)%Q ∧ y p' = (random j * height)%Q)
      ∧ (∃ i j,
           vx p' = ((random i - 0.5) * exact (speedMultiplier variant))%Q
           ∧ vy p' = ((random j - 0.5) * exact (speedMultiplier variant))%Q)
      ∧ ∃ c, color p' = Some c
             ∧ c ∈ [primary colors; secondary colors; accent colors]
    else p' = advance variant p.

End Random.

(** The pool size asked for by a derived variant, from the eight bits of the
    hash that give its density. *)
Definition target_of (k : Z) : Z := Z.max 40 (floor (90 * density_of k)%float).

Definition target_ok (k : Z) : bool :=
  is_finite (90 * density_of k)%float
  && (target_of k =? floor (90 * density_of k)%float)
  && (62 <=? target_of k) && (target_of k <=? 288).

(** Whether the life of a particle does not grow in a step. *)
Definition decay_ok (k : Z) : bool :=
  Qle_bool 0 (exact (0.4 + intensity_of k * 0.2)%float).

(** Two particles for the examples: one about to expire, one in flight. *)
Definition sample_particles : list Particle :=
  [ {| x := 10; y := 20; vx := 1; vy := 1; life := 0.1; maxLife := 100;
       char := Some "·"%string; color := Some (lit "#ffffff") |};
    {| x := 400; y := 300; vx := -1; vy := 0.5; life := 60; maxLife := 100;
       char := Some "✶"%string; color := Some (lit "#88aaff") |} ]%Q.

End Particles.

(** ** Ordered dithering *)

Module Dither.
Import JS Catalog.

Record RGB := { r : Z; g : Z; b : Z }.

(** The value of a hexadecimal digit, for [[a-f\d]] under the [i] flag. *)
Definition hexDigit (c : Z) : option Z :=
  if (48 <=? c) && (c <=? 57) then Some (c - 48)
  else if (97 <=? c) && (c <=? 102) then Some (c - 87)
  else if (65 <=? c) && (c <=? 70) then Some (c - 55)
  else None.

(** [Number.parseInt] of a two-character capture group in base 16. *)
Definition parsePair (hi lo : Z) : option Z :=
  h ← hexDigit hi; l ← hexDigit lo; Some (16 * h + l).

Definition hexToRgb (hex : jsstring) : RGB :=
  let digits := match hex with 35 :: rest => rest | _ => hex end in
  let result :=
    match digits with
    | [r1; r2; g1; g2; b1; b2] =>
        r ← parsePair r1 r2; g ← parsePair g1 g2; b ← parsePair b1 b2;
        Some {| r := r; g := g; b := b |}
    | _ => None
    end in
  default {| r := 0; g := 0; b := 0 |} result.

(** [Math.min] on two numbers. *)
Definition Math_min (a b : float) : float :=
  if PrimFloat.is_nan a || PrimFloat.is_nan b then nan
  else if (a <? b)%float then a else b.

(** The conversion applied by a store into a [Uint8ClampedArray]: clamp to
    [0, 255] and round to the nearest integer, ties to even. *)
Definition roundHalfEven (q : Q) : Z :=
  let f := Qfloor q in
  match (q - inject_Z f ?= 1 # 2)%Q with
  | Lt => f
  | Gt => f + 1
  | Eq => if Z.even f then f else f + 1
  end.

Definition ToUint8Clamp (v : float) : Z :=
  match Prim2SF v with
  | S754_nan => 0
  | S754_infinity s => if s then 0 else 255
  | _ => Z.max 0 (Z.min 255 (roundHalfEven (exact v)))
  end.

Definition ditherMatrix : list (list Z) :=
  [ [0; 8; 2; 10];
    [12; 4; 14; 6];
    [3; 11; 1; 9];
    [15; 7; 13; 5] ].

(** [(ditherMatrix[y % 4][x % 4] / 16) * 255]. *)
Definition threshold (x y : nat) : float :=
  let row := default [] (ditherMatrix !! (y mod 4)%nat) in
  let entry := default 0 (row !! (x mod 4)%nat) in
  (num entry / 16 * 255)%float.

(** A read of [data[i]] inside the buffer. *)
Definition channel (data : list Z) (i : nat) : float :=
  num (default 0 (data !! i)).

(** The body of the inner loop: the pixel at [(x, y)] is rewritten in place,
    one channel store after the other. *)
Definition ditherPixel (tint accent : RGB) (width : nat) (x y : nat)
    (data : list Z) : list Z :=
  let i := ((y * width + x) * 4)%nat in
  let threshold := threshold x y in
  let gray :=
    (channel data i * 0.299 + channel data (i + 1) * 0.587
     + channel data (i + 2) * 0.114)%float in
  if (threshold <? gray)%float then
    let tintStrength := (gray / 255)%float in
    let data :=
      <[i := ToUint8Clamp
               (Math_min 255 (channel data i * 0.7 + num (r tint) * 0.2
                              + num (r accent) * 0.1 * tintStrength))]> data in
    let data :=
      <[(i + 1)%nat := ToUint8Clamp
               (Math_min 255 (channel data (i + 1) * 0.7 + num (g tint) * 0.2
                              + num (g accent) * 0.1 * tintStrength))]> data in
    <[(i + 2)%nat := ToUint8Clamp
               (Math_min 255 (channel data (i + 2) * 0.7 + num (b tint) * 0.2
                              + num (b accent) * 0.1 * tintStrength))]> data
  else
    let data := <[i := ToUint8Clamp (channel data i * 0.15)]> data in
    let data :=
      <[(i + 1)%nat := ToUint8Clamp (channel data (i + 1) * 0.15)]> data in
    <[(i + 2)%nat := ToUint8Clamp (channel data (i + 2) * 0.15)]> data.

(** The whole pass over the [width * height * 4] bytes of the image: rows
    outside, columns inside. *)
Definition applyEnhancedDithering (data : list Z) (width height : nat)
    (colors : Palette) : list Z :=
  let tint := hexToRgb (secondary colors) in
  let accent := hexToRgb (accent colors) in
  fold_left
    (λ data y,
       fold_left (λ data x, ditherPixel tint accent width x y data)
                 (seq 0 width) data)
    (seq 0 height) data.

(** What the pass stores for one pixel, as a function of the pixel's three
    colour channels before the pass. *)
Definition tinted (tint accent : RGB) (gray : float) (R G B : Z)
  : Z * Z * Z :=
  let tintStrength := (gray / 255)%float in
  (ToUint8Clamp (Math_min 255 (num R * 0.7 + num (r tint) * 0.2
                               + num (r accent) * 0.1 * tintStrength)),
   ToUint8Clamp (Math_min 255 (num G * 0.7 + num (g tint) * 0.2
                               + num (g accent) * 0.1 * tintStrength)),
   ToUint8Clamp (Math_min 255 (num B * 0.7 + num (b tint) * 0.2
                               + num (b accent) * 0.1 * tintStrength))).

Definition darkened (R G B : Z) : Z * Z * Z :=
  (ToUint8Clamp (num R * 0.15), ToUint8Clamp (num G * 0.15),
   ToUint8Clamp (num B * 0.15)).

Definition luma (R G B : Z) : float :=
  (num R * 0.299 + num G * 0.587 + num B * 0.114)%float.

(** A colour channel of an image buffer. *)
Definition byte (c : Z) : Prop := 0 ≤ c ≤ 255.

(** What the pass stores for the pixel at [(x, y)] whose colour channels
    were [R], [G], [B]. *)
Definition pixel_out (tint accent : RGB) (x y : nat) (R G B : Z)
  : Z * Z * Z :=
  if (threshold x y <? luma R G B)%float
  then tinted tint accent (luma R G B) R G B
  else darkened R G B.

Section Loops.

Variables tint accent : RGB.
Variable width : nat.

(** The pixel at [(x, y)] of [out] is the dithered pixel of [data]: the
    three colour channels are rewritten, the alpha channel is kept. *)
Definition dithered (data out : list Z) (x y : nat) : Prop :=
  ∃ R G B A,
    data !! ((y * width + x) * 4)%nat = Some R
    ∧ data !! ((y * width + x) * 4 + 1)%nat = Some G
    ∧ data !! ((y * width + x) * 4 + 2)%nat = Some B
    ∧ data !! ((y * width + x) * 4 + 3)%nat = Some A
    ∧ out !! ((y * width + x) * 4)%nat
      = Some (pixel_out tint accent x y R G B).1.1
    ∧ out !! ((y * width + x) * 4 + 1)%nat
      = Some (pixel_out tint accent x y R G B).1.2
    ∧ out !! ((y * width + x) * 4 + 2)%nat
      = Some (pixel_out tint accent x y R G B).2
    ∧ out !! ((y * width + x) * 4 + 3)%nat = Some A.

(** The inner loop over the first [k] columns of row [y]. *)
Definition row (k y : nat) (data : list Z) : list Z :=
  fold_left (λ data x, ditherPixel tint accent width x y data) (seq 0 k) data.

(** The outer loop over the first [m] rows. *)
Definition rows (m : nat) (data : list Z) : list Z :=
  fold_left (λ data y, row width y data) (seq 0 m) data.

End Loops.

(** A 2 × 2 image for the examples. *)
Definition sample_image : list Z :=
  [ 0; 0; 0; 255;  200; 100; 50; 255;
    10; 10; 10; 255;  255; 255; 255; 255 ].

End Dither.


(** ** The string hash as a polynomial *)

Module HashSum.
Import JS.

(** [c0 * 31^(n-1) + c1 * 31^(n-2) + ... + c(n-1)], without truncation. *)
Fixpoint polynomial (s : jsstring) (acc : Z) : Z :=
  match s with
  | [] => acc
  | c :: rest => polynomial rest (31 * acc + c)
  end.

End HashSum.

(** ** Hexadecimal colours *)

Module Hex.
Import JS.

(** The character of a hexadecimal digit, in lower or in upper case. *)
Definition hexChar (upper : bool) (d : Z) : Z :=
  if d <? 10 then 48 + d else if upper then 55 + d else 87 + d.

(** The six digits of a colour, [rrggbb]. *)
Definition hexString (upper : bool) (r g b : Z) : jsstring :=
  [ hexChar upper (r / 16); hexChar upper (r mod 16);
    hexChar upper (g / 16); hexChar upper (g mod 16);
    hexChar upper (b / 16); hexChar upper (b mod 16) ].

End Hex.

(** ** Canvas size and scale *)

Module Canvas.
Import JS Dither.

(** [Math.max] on two numbers. *)
Definition Math_max (a b : float) : float :=
  if PrimFloat.is_nan a || PrimFloat.is_nan b then nan
  else if (a <? b)%float then b else a.

(** [updateSize]: the size given to the canvas, from the client size of its
    parent element when there is one, from the window otherwise.  The sizes
    are integers; a store into [canvas.width] or [canvas.height] truncates. *)
Definition updateSize (parent : option (Z * Z)) (innerWidth innerHeight : Z)
  : Z * Z :=
  match parent with
  | Some (clientWidth, clientHeight) =>
      (Z.max 320 clientWidth, Z.max 240 clientHeight)
  | None =>
      let isMobile := innerWidth <? 1024 in
      (Z.min (if isMobile then innerWidth else innerWidth / 2) 1920,
       if isMobile then floor (Math_max 240 (num innerHeight * 0.55))
       else Z.min innerHeight 1080)
  end.

(** The scale of [render]. *)
Definition scaleFactor (width : Z) : float :=
  let desktopThreshold := 700 in
  let mobileThreshold := 480 in
  let threshold := if width <? 640 then mobileThreshold else desktopThreshold in
  Math_min 1 (Math_max 0.6 (num width / num threshold)).

Definition scaledWidth (width : Z) : float :=
  (num width / scaleFactor width)%float.

Definition scaledHeight (width height : Z) : float :=
  (num height / scaleFactor width)%float.

(** What the scale is checked against, width by width. *)
Definition logicalWidth (width : Z) : Z :=
  if width <? 480 then 480 else if width <? 640 then width
  else if width <? 700 then 700 else width.

Definition scale_ok (width : Z) : bool :=
  let s := scaleFactor width in
  is_finite s && (0.6 <? s)%float && (s <=? 1)%float
  && (num width <=? scaledWidth width)%float
  && bool_decide
       ((s =? 1)%float = ((480 <=? width) && (width <? 640)) || (700 <=? width))
  && Qle_bool (Qabs (exact (scaledWidth width) - inject_Z (logicalWidth width)))
       (1 # 1000000000).

End Canvas.

(** ** The clock of the overlay *)

Module Overlay.
Import JS.

(** [n.toString()] for a non-negative integer: its decimal digits. *)
Fixpoint digits (fuel n : nat) (acc : jsstring) : jsstring :=
  match fuel with
  | O => acc
  | S fuel' =>
      let acc' := (48 + Z.of_nat (n mod 10)) :: acc in
      if (n <? 10)%nat then acc' else digits fuel' (n / 10) acc'
  end.

Definition toString (n : nat) : jsstring := digits (S n) n [].

(** [s.padStart(targetLength, pad)] for a one-character [pad]. *)
Definition padStart (targetLength : nat) (pad : Z) (s : jsstring) : jsstring :=
  replicate (targetLength - length s) pad ++ s.

(** [timeString] of [drawEnhancedASCIIOverlay], from [getHours()],
    [getMinutes()] and [getSeconds()]. *)
Definition timeString (h m s : nat) : jsstring :=
  let hours := padStart 2 48 (toString h) in
  let minutes := padStart 2 48 (toString m) in
  let seconds := padStart 2 48 (toString s) in
  hours ++ lit ":" ++ minutes ++ lit ":" ++ seconds ++ lit " IST".

Definition two_digits_ok (n : nat) : bool :=
  bool_decide (padStart 2 48 (toString n)
               = [48 + Z.of_nat (n / 10); 48 + Z.of_nat (n mod 10)]).

End Overlay.

(** ** One frame: pool, pattern and star field *)

Module Frame.
Import JS Style Catalog Particles Dither.

(** The renderer that the [switch] of [renderEntity] selects. *)
Inductive Pattern :=
  | MeteoroidField
  | BlackHole
  | Star (isSun : bool)
  | Pulsar
  | Nebula
  | Galaxy
  | StarCluster
  | Quasar
  | SupernovaRemnant
  | Exoplanet
  | PlanetaryRings.

Definition isType (type : jsstring) (tag : string) : bool :=
  bool_decide (type = lit tag).

Definition pattern_of (type : jsstring) : option Pattern :=
  if isType type "meteoroid" || isType type "comet" then Some MeteoroidField
  else if isType type "blackhole" then Some BlackHole
  else if isType type "sun" || isType type "star"
  then Some (Star (isType type "sun"))
  else if isType type "pulsar" then Some Pulsar
  else if isType type "nebula" then Some Nebula
  else if isType type "galaxy" then Some Galaxy
  else if isType type "cluster" then Some StarCluster
  else if isType type "quasar" then Some Quasar
  else if isType type "supernova" then Some SupernovaRemnant
  else if isType type "exoplanet" then Some Exoplanet
  else if isType type "rings" then Some PlanetaryRings
  else None.

(** The type tags of the [case] labels. *)
Definition PATTERN_TYPES : list string :=
  [ "meteoroid"; "comet"; "blackhole"; "sun"; "star"; "pulsar"; "nebula";
    "galaxy"; "cluster"; "quasar"; "supernova"; "exoplanet"; "rings" ]%string.

(** A CSS colour [rgba(r, g, b, a)]. *)
Record Rgba := { rgb : RGB; alpha : Q }.

Definition withAlpha (hex : jsstring) (alpha : Q) : Rgba :=
  let clamped := Qmin 1 (Qmax 0 alpha) in
  {| rgb := hexToRgb hex; alpha := clamped |}.

(** [staggerTime], with its default [extraOffset]. *)
Definition ELEMENT_STAGGER_MS : Q := 200.

Definition staggerTime (time : Q) (index : Z) (extraOffset : Q) : Q :=
  (time - (inject_Z index + extraOffset) * ELEMENT_STAGGER_MS)%Q.

(** [a % b] on numbers: the remainder has the sign of [a]. *)
Definition Qtrunc (q : Q) : Z :=
  if Qle_bool 0 q then Qfloor q else Qceiling q.

Definition Qrem (a b : Q) : Q := (a - b * inject_Z (Qtrunc (a / b)))%Q.

(** One [fillText] call and the fill style it is drawn with. *)
Record Glyph := {
  glyph : option string;
  glyph_x : Q;
  glyph_y : Q;
  fillStyle : Rgba
}.

(** The glyphs and colours that [createParticle] chooses from. *)
Definition charSet_of (variant : option StyleVariant) : list string :=
  match variant with
  | Some _ => ["·"; "∙"; "•"; "○"; "✶"; "✷"; "✸"; "✹"; "✺"; "✻"]%string
  | None => ["·"; "∙"; "•"; "○"]%string
  end.

Definition palette_of (colors : option Palette) : list jsstring :=
  match colors with
  | Some c => [primary c; secondary c; accent c]
  | None => [lit "#FFFFFF"]
  end.

(** What [createParticle] returns, and how many draws it makes. *)
Definition fresh (width height : Q) (variant : option StyleVariant)
    (colors : option Palette) (p : Particle) : Prop :=
  ((0 <= x p)%Q ∧ (x p < width)%Q)
  ∧ ((0 <= y p)%Q ∧ (y p < height)%Q)
  ∧ ((- (1 # 4) <= vx p)%Q ∧ (vx p < 1 # 4)%Q)
  ∧ ((- (1 # 4) <= vy p)%Q ∧ (vy p < 1 # 4)%Q)
  ∧ ((0 <= life p)%Q ∧ (life p < 100)%Q)
  ∧ maxLife p = 100%Q
  ∧ (∃ c, char p = Some c ∧ c ∈ charSet_of variant)
  ∧ (∃ c, color p = Some c ∧ c ∈ palette_of colors).

Section Random.

Variable random : nat → Q.
Variable sin : Q → Q.

(** The pool at mount: 200 particles pushed into an empty pool, a pool
    that already has particles being kept. *)
Fixpoint pushInitial (count : nat) (width height : Q)
    (particles : list Particle) : Draw (list Particle) :=
  match count with
  | O => mret particles
  | S count' =>
      p ← createParticle random width height None None;
      pushInitial count' width height (particles ++ [p])
  end.

Definition mountPool (width height : Q) (particles : list Particle)
  : Draw (list Particle) :=
  if (length particles =? 0)%nat then pushInitial 200 width height particles
  else mret particles.

(** The statements of [renderEntity] that read or write the pool: the
    adjustment, then [updateParticles].  The drawing calls around them leave
    the pool alone. *)
Definition renderEntity (width height : Q) (entity : CosmicEntity)
    (particles : list Particle) (variant : StyleVariant)
  : Draw (list Particle) :=
  adjusted ← adjustPool random width height variant (colorPalette entity)
               particles;
  updateParticles random sin adjusted width height (colorPalette entity)
    variant.

(** A call of [renderEntity] from [render]: the variant is the one of the
    entity, and [draws] calls of [Math.random] have been made before. *)
Record Call := {
  call_width : Q;
  call_height : Q;
  call_entity : CosmicEntity;
  call_draws : nat
}.

Definition renderCall (particles : list Particle) (c : Call)
  : list Particle :=
  (renderEntity (call_width c) (call_height c) (call_entity c) particles
     (getStyleVariant (animationStyle (call_entity c))
        (type (call_entity c)))
     (call_draws c)).1.

Definition renderCalls (calls : list Call) (particles : list Particle)
  : list Particle :=
  fold_left renderCall calls particles.

(** [drawStarField]: the font size and the stars drawn, in order. *)
Definition starCount (variant : StyleVariant) : Z :=
  floor (110 * densityMultiplier variant)%float.

Definition star (width height time : Q) (colors : Palette)
    (variant : StyleVariant) (i : Z) : Glyph :=
  let twinkleSpeed := exact (700 / speedMultiplier variant)%float in
  let glyphs :=
    if bool_decide (baseStyle variant = Some twinkle)
    then ["✶"; "✷"; "✸"]%string else ["·"; "∙"; "•"]%string in
  let starTime := staggerTime time i 0 in
  let x :=
    Qrem (inject_Z i * 137.5 + inject_Z (rem (seed variant) 97)) width in
  let y :=
    Qrem (inject_Z i * exact 73.3%float + inject_Z (rem (seed variant) 53))
      height in
  let twinkle :=
    (sin (starTime / twinkleSpeed + inject_Z i
          + exact (oscillationPhase variant)) * 0.5 + 0.5)%Q in
  {| glyph := index glyphs (rem i (Z.of_nat (length glyphs)));
     glyph_x := x;
     glyph_y := y;
     fillStyle := withAlpha (accent colors) (0.25 + twinkle * 0.6) |}.

Definition drawStarField (width height time : Q) (colors : Palette)
    (variant : StyleVariant) : Q * list Glyph :=
  (exact (9 + intensity variant * 3)%float,
   star width height time colors variant
     <$> (Z.of_nat <$> seq 0 (Z.to_nat (starCount variant)))).

End Random.

(** What the numeric fields of a variant are checked against, by the bits
    taken from the hash. *)
Definition field_ranges_ok (k : Z) : bool :=
  (0.6 <=? speed_of k)%float && (speed_of k <=? 2.8000000000000003)%float
  && (0.7 <=? density_of k)%float && (density_of k <=? 3.2)%float
  && (0.5 <=? intensity_of k)%float && (intensity_of k <=? 2)%float
  && (0 <=? phase_of k)%float && (phase_of k <=? 2 * PI)%float.

Definition distortion_ok (k : Z) : bool :=
  (0 <=? unit_of k 63)%float && (unit_of k 63 <=? 1)%float.

Definition star_count_ok (k : Z) : bool :=
  is_finite (110 * density_of k)%float
  && (77 <=? floor (110 * density_of k)%float)
  && (floor (110 * density_of k)%float <=? 352).

(** What dithering makes of one channel of a pixel that is not brighter than
    its threshold. *)
Definition darkened_ok (c : Z) : bool :=
  (0 <=? ToUint8Clamp (num c * 0.15)) && (ToUint8Clamp (num c * 0.15) <=? c)
  && (ToUint8Clamp (num c * 0.15) <=? 38).

End Frame.

(** * Properties *)

(** ** 32-bit arithmetic *)

Section Int32.
Import JS.

Lemma ToInt32_range z : - 2 ^ 31 ≤ ToInt32 z < 2 ^ 31.
Proof.
  unfold ToInt32.
  pose proof (Z.mod_pos_bound (z + 2 ^ 31) (2 ^ 32) ltac:(lia)). lia.
Qed.

Lemma ToInt32_small z : - 2 ^ 31 ≤ z < 2 ^ 31 → ToInt32 z = z.
Proof.
  intros Hz. unfold ToInt32. rewrite Z.mod_small; lia.
Qed.

Lemma ToInt32_wraps z : ∃ k, ToInt32 z = z + k * 2 ^ 32.
Proof.
  exists (- ((z + 2 ^ 31) / 2 ^ 32)). unfold ToInt32.
  rewrite Z.mod_eq by lia. lia.
Qed.

Lemma ToInt32_shift z k : ToInt32 (z + k * 2 ^ 32) = ToInt32 z.
Proof.
  unfold ToInt32.
  replace (z + k * 2 ^ 32 + 2 ^ 31) with (z + 2 ^ 31 + k * 2 ^ 32) by lia.
  by rewrite Z_mod_plus_full.
Qed.

Lemma band_low_bits a n :
  0 ≤ n < 31 → 0 ≤ band a (Z.ones n) < 2 ^ n.
Proof.
  intros Hn. unfold band.
  assert (0 ≤ Z.ones n < 2 ^ 31) as Hones.
  { rewrite Z.ones_equiv.
    pose proof (Z.pow_pos_nonneg 2 n ltac:(lia) ltac:(lia)).
    pose proof (Z.pow_lt_mono_r 2 n 31 ltac:(lia) ltac:(lia) ltac:(lia)). lia. }
  rewrite (ToInt32_small (Z.ones n)) by lia.
  rewrite Z.land_ones by lia.
  pose proof (Z.mod_pos_bound (ToInt32 a) (2 ^ n) ltac:(lia)).
  pose proof (Z.pow_lt_mono_r 2 n 31 ltac:(lia) ltac:(lia) ltac:(lia)).
  rewrite ToInt32_small; lia.
Qed.

Lemma band_byte a : 0 ≤ band a 255 < 256.
Proof. apply (band_low_bits a 8). lia. Qed.

Lemma band_six_bits a : 0 ≤ band a 63 < 64.
Proof. apply (band_low_bits a 6). lia. Qed.

End Int32.

(** ** The string hash *)

Section Hash.
Import JS Style.

Lemma hash_step_31 h c : hash_step h c = ToInt32 (31 * h + c).
Proof.
  unfold hash_step, bor0, shl. rewrite Z.shiftl_mul_pow2 by lia.
  destruct (ToInt32_wraps h) as [k1 E1]. rewrite E1.
  destruct (ToInt32_wraps ((h + k1 * 2 ^ 32) * 2 ^ 5)) as [k2 E2]. rewrite E2.
  replace ((h + k1 * 2 ^ 32) * 2 ^ 5 + k2 * 2 ^ 32 - h + c)
    with (31 * h + c + (32 * k1 + k2) * 2 ^ 32) by lia.
  apply ToInt32_shift.
Qed.

Lemma fold_hash_step s h :
  fold_left hash_step s h = fold_left (λ h c, ToInt32 (31 * h + c)) s h.
Proof.
  revert h. induction s as [|c s IH]; intros h; simpl; [done|].
  by rewrite hash_step_31, IH.
Qed.

Lemma fold_hash_range s h0 :
  - 2 ^ 31 ≤ h0 < 2 ^ 31 →
  - 2 ^ 31 ≤ fold_left (λ h c, ToInt32 (31 * h + c)) s h0 < 2 ^ 31.
Proof.
  revert h0. induction s as [|c s IH]; intros h0 H0; simpl; [lia|].
  apply IH, ToInt32_range.
Qed.

Lemma hashString_range s : - 2 ^ 31 ≤ hashString s < 2 ^ 31.
Proof.
  unfold hashString. rewrite fold_hash_step. apply fold_hash_range. lia.
Qed.

(** C8.  [hashString] is the polynomial rolling hash of the specification:
    from 0, each character turns the hash [h] into [31 * h + code] truncated
    to a signed 32-bit integer, the product being computed as
    [(h << 5) - h].  [getStyleVariant] seeds the variant with the absolute
    value of the hash of the style label, of the entity type when the label
    is empty, and of ["cosmic"] when both are empty. *)
Theorem hashString_rolling_hash :
  ∀ (s animationStyle entityType : jsstring),
    hashString s = rolling_hash s
    ∧ (∀ h c, shl h 5 - h + c = ToInt32 (32 * ToInt32 h) - h + c
              ∧ hash_step h c = ToInt32 (31 * h + c))
    ∧ - 2 ^ 31 ≤ hashString s < 2 ^ 31
    ∧ (animationStyle ≠ [] →
       seed (getStyleVariant animationStyle entityType)
       = Z.abs (hashString animationStyle))
    ∧ (animationStyle = [] → entityType ≠ [] →
       seed (getStyleVariant animationStyle entityType)
       = Z.abs (hashString entityType))
    ∧ (animationStyle = [] → entityType = [] →
       seed (getStyleVariant animationStyle entityType)
       = Z.abs (hashString (lit "cosmic"))).
Proof.
  intros s a t. split; [apply fold_hash_step|].
  split.
  { intros h c. split; [|apply hash_step_31].
    unfold shl. rewrite Z.shiftl_mul_pow2 by lia.
    do 2 f_equal. f_equal. lia. }
  split; [apply hashString_range|].
  unfold getStyleVariant, or_else; simpl.
  repeat split.
  - intros Ha. destruct a; [done|]. reflexivity.
  - intros -> Ht. destruct t; [done|]. reflexivity.
  - intros -> ->. reflexivity.
Qed.

Lemma hashString_rolling_hash_witness :
  hashString (lit "swirl") = 109854591
  ∧ rolling_hash (lit "swirl") = 109854591
  ∧ seed (getStyleVariant (lit "swirl") (lit "blackhole")) = 109854591
  ∧ seed (getStyleVariant [] (lit "swirl")) = 109854591
  ∧ seed (getStyleVariant [] []) = 1354636448.
Proof.
  destruct (hashString_rolling_hash (lit "swirl") (lit "swirl")
              (lit "blackhole")) as (H1 & _ & _ & H2 & _).
  destruct (hashString_rolling_hash [] [] (lit "swirl"))
    as (_ & _ & _ & _ & H3 & _).
  destruct (hashString_rolling_hash [] [] []) as (_ & _ & _ & _ & _ & H4).
  split; [reflexivity|].
  split; [rewrite <- H1; reflexivity|].
  split; [rewrite H2 by discriminate; reflexivity|].
  split; [rewrite H3 by (reflexivity || discriminate); reflexivity|].
  rewrite H4 by reflexivity. reflexivity.
Defined.

End Hash.

(** ** Style variants *)

Section Variants.
Import JS Style.

(** Checking a decidable property of every integer below a bound. *)
Lemma below_forallb (P : Z → bool) (n : nat) :
  forallb P (Z.of_nat <$> seq 0 n) = true →
  ∀ k, 0 ≤ k < Z.of_nat n → P k = true.
Proof.
  intros H k Hk. rewrite forallb_forall in H. apply H.
  apply in_map_iff. exists (Z.to_nat k). split; [lia|].
  apply in_seq. lia.
Qed.

Lemma variant_fields animationStyle entityType :
  let v := getStyleVariant animationStyle entityType in
  ∃ k2 k10 k18 k24 k5,
    (0 ≤ k2 < 256 ∧ 0 ≤ k10 < 256 ∧ 0 ≤ k18 < 256 ∧ 0 ≤ k24 < 256
     ∧ 0 ≤ k5 < 64)
    ∧ speedMultiplier v = speed_of k2
    ∧ densityMultiplier v = density_of k10
    ∧ intensity v = intensity_of k18
    ∧ oscillationPhase v = phase_of k24
    ∧ distortion v = unit_of k5 63.
Proof.
  intros v. subst v. unfold getStyleVariant.
  cbn [speedMultiplier densityMultiplier intensity oscillationPhase distortion].
  set (hash := Z.abs _).
  exists (band (sar hash 2) 255), (band (sar hash 10) 255),
    (band (sar hash 18) 255), (band (sar hash 24) 255), (band (sar hash 5) 63).
  split; [|done].
  auto using band_byte, band_six_bits.
Qed.

Lemma seed_nonneg animationStyle entityType :
  0 ≤ seed (getStyleVariant animationStyle entityType).
Proof. unfold getStyleVariant. cbn [seed]. lia. Qed.

Lemma fields_are_numbers :
  (∀ k, 0 ≤ k < 256 → byte_fields_ok k = true)
  ∧ (∀ k, 0 ≤ k < 64 → six_bit_field_ok k = true).
Proof.
  split; intros k Hk.
  - apply (below_forallb byte_fields_ok 256); [by vm_compute | lia].
  - apply (below_forallb six_bit_field_ok 64); [by vm_compute | lia].
Qed.

(** C1.  [getStyleVariant] is a function of its two arguments alone: equal
    style labels and entity types give equal variants, field by field.  The
    base style and the seed are the same, and the five numeric fields are
    finite numbers that compare equal under the floating-point comparison
    (none of them is NaN). *)
Theorem getStyleVariant_deterministic :
  ∀ (animationStyle entityType animationStyle' entityType' : jsstring),
    animationStyle = animationStyle' →
    entityType = entityType' →
    let v := getStyleVariant animationStyle entityType in
    let v' := getStyleVariant animationStyle' entityType' in
    v = v'
    ∧ baseStyle v = baseStyle v'
    ∧ seed v = seed v'
    ∧ same_number (speedMultiplier v) (speedMultiplier v') = true
    ∧ same_number (densityMultiplier v) (densityMultiplier v') = true
    ∧ same_number (intensity v) (intensity v') = true
    ∧ same_number (oscillationPhase v) (oscillationPhase v') = true
    ∧ same_number (distortion v) (distortion v') = true.
Proof.
  intros a t a' t' <- <-. cbv zeta.
  destruct (variant_fields a t)
    as (k2 & k10 & k18 & k24 & k5 & (H2 & H10 & H18 & H24 & H5)
        & E2 & E10 & E18 & E24 & E5).
  cbv zeta in *. rewrite E2, E10, E18, E24, E5.
  destruct fields_are_numbers as [Hbyte Hsix].
  pose proof (Hbyte k2 H2) as F2. pose proof (Hbyte k10 H10) as F10.
  pose proof (Hbyte k18 H18) as F18. pose proof (Hbyte k24 H24) as F24.
  unfold byte_fields_ok in *.
  repeat (match goal with H : _ && _ = true |- _ =>
            apply andb_prop in H as [H ?] end).
  repeat split; try reflexivity; try assumption.
  by apply Hsix.
Qed.

Lemma getStyleVariant_deterministic_witness :
  baseStyle (getStyleVariant (lit "swirl") (lit "blackhole"))
  = baseStyle (getStyleVariant (lit "swirl") (lit "blackhole"))
  ∧ same_number
      (speedMultiplier (getStyleVariant (lit "swirl") (lit "blackhole")))
      (speedMultiplier (getStyleVariant (lit "swirl") (lit "blackhole")))
    = true
  ∧ same_number
      (oscillationPhase (getStyleVariant (lit "swirl") (lit "blackhole")))
      (oscillationPhase (getStyleVariant (lit "swirl") (lit "blackhole")))
    = true.
Proof.
  destruct (getStyleVariant_deterministic
              (lit "swirl") (lit "blackhole") (lit "swirl") (lit "blackhole")
              eq_refl eq_refl)
    as (_ & Hbase & _ & Hspeed & _ & _ & Hphase & _).
  split; [exact Hbase|]. split; [exact Hspeed | exact Hphase].
Defined.

(** Every declared bias list has three base styles, except the one of
    ["pulsar"], which has two. *)
Lemma bias_lists t l :
  TYPE_STYLE_BIAS !! t = Some l →
  length l = 3%nat ∨ (t = lit "pulsar" ∧ l = [pulse; flare]).
Proof.
  intros H. apply elem_of_list_to_map_2 in H.
  assert (Forall (λ kl : jsstring * list BaseStyle,
                    length kl.2 = 3%nat
                    ∨ (kl.1 = lit "pulsar" ∧ kl.2 = [pulse; flare]))
                 (prod_map lit id <$> TYPE_STYLE_BIAS_entries)) as HF.
  { unfold TYPE_STYLE_BIAS_entries.
    repeat (apply Forall_cons; split;
            [first [left; reflexivity | right; split; reflexivity]|]).
    apply Forall_nil_2. }
  rewrite Forall_forall in HF. exact (HF (t, l) H).
Qed.

Lemma index_rem {A} (l : list A) (hash : Z) :
  0 ≤ hash → l ≠ [] →
  ∃ s, index l (rem hash (Z.of_nat (length l))) = Some s
       ∧ s ∈ l
       ∧ l !! Z.to_nat (hash mod Z.of_nat (length l)) = Some s.
Proof.
  intros Hh Hl.
  assert (0 < Z.of_nat (length l)) as Hn by (destruct l; [done | simpl; lia]).
  unfold index, rem. rewrite Z.rem_mod_nonneg by lia.
  pose proof (Z.mod_pos_bound hash _ Hn) as Hm.
  destruct (Z.leb_spec 0 (hash mod Z.of_nat (length l))); [|lia].
  destruct (lookup_lt_is_Some_2 l (Z.to_nat (hash mod Z.of_nat (length l))))
    as [s Hs]; [lia|].
  exists s. split; [exact Hs|]. split; [|exact Hs].
  eapply list_elem_of_lookup_2. exact Hs.
Qed.

(** C2, amended.  For an entity type of the bias table, the base style is
    the element of that type's declared list at position [seed mod length];
    the list has three base styles, except for ["pulsar"], whose list is
    [pulse; flare].  For an entity type that is neither in the table nor the
    name of a property of [Object.prototype], the base style is the element
    of the eight-style list at position [seed mod 8]. *)
Theorem getStyleVariant_base_style :
  ∀ (animationStyle entityType : jsstring),
    let v := getStyleVariant animationStyle entityType in
    (∀ l, TYPE_STYLE_BIAS !! entityType = Some l →
       (length l = 3%nat ∨ (entityType = lit "pulsar" ∧ l = [pulse; flare]))
       ∧ ∃ s, baseStyle v = Some s ∧ s ∈ l
              ∧ l !! Z.to_nat (seed v mod Z.of_nat (length l)) = Some s)
    ∧ (TYPE_STYLE_BIAS !! entityType = None →
       entityType ∉ OBJECT_PROTOTYPE_KEYS →
       BASE_STYLES = [drift; swirl; pulse; twinkle; wave; orbit; flare; ripple]
       ∧ ∃ s, baseStyle v = Some s ∧ s ∈ BASE_STYLES
              ∧ BASE_STYLES !! Z.to_nat (seed v mod 8) = Some s).
Proof.
  intros a t v. pose proof (seed_nonneg a t) as Hseed. split.
  - intros l Hl. pose proof (bias_lists t l Hl) as Hlen.
    split; [exact Hlen|].
    assert (l ≠ []) as Hne.
    { destruct Hlen as [?|[_ E]]; [by destruct l | by rewrite E]. }
    destruct (index_rem l (seed v) Hseed Hne) as (s & Hs & Hin & Hat).
    exists s. split; [|split; assumption].
    subst v. unfold getStyleVariant, bias_lookup in *.
    cbn [baseStyle seed] in *. rewrite Hl. exact Hs.
  - intros Hnone Hproto. split; [reflexivity|].
    destruct (index_rem BASE_STYLES (seed v) Hseed ltac:(done))
      as (s & Hs & Hin & Hat).
    exists s. split; [|split; assumption].
    subst v. unfold getStyleVariant, bias_lookup in *.
    cbn [baseStyle seed] in *.
    rewrite Hnone. rewrite bool_decide_eq_false_2 by assumption. exact Hs.
Qed.

Lemma getStyleVariant_base_style_witness :
  (∃ s, baseStyle (getStyleVariant (lit "swirl") (lit "blackhole")) = Some s
        ∧ s ∈ [swirl; ripple; flare])
  ∧ (∃ s, baseStyle (getStyleVariant (lit "swirl") (lit "wormhole")) = Some s
          ∧ s ∈ BASE_STYLES).
Proof.
  split.
  - destruct (proj1 (getStyleVariant_base_style (lit "swirl") (lit "blackhole"))
                [swirl; ripple; flare] ltac:(by vm_compute))
      as (_ & s & Hs & Hin & _).
    exists s. split; assumption.
  - destruct (proj2 (getStyleVariant_base_style (lit "swirl") (lit "wormhole"))
                ltac:(by vm_compute)
                ltac:(by apply (bool_decide_unpack _); vm_compute))
      as (_ & s & Hs & Hin & _).
    exists s. split; assumption.
Defined.

(** C2 as stated fails: the list declared for ["pulsar"] has two base
    styles, so "drawn from the type's three-element list" does not hold of
    every type of the table; and a type outside the table that names a
    property of [Object.prototype] gets no base style at all. *)
Lemma bias_list_not_always_three :
  TYPE_STYLE_BIAS !! lit "pulsar" = Some [pulse; flare]
  ∧ ¬ (∀ (animationStyle entityType : jsstring) l,
         TYPE_STYLE_BIAS !! entityType = Some l →
         length l = 3%nat
         ∧ ∃ s, baseStyle (getStyleVariant animationStyle entityType) = Some s
                ∧ s ∈ l)
  ∧ TYPE_STYLE_BIAS !! lit "toString" = None
  ∧ baseStyle (getStyleVariant (lit "swirl") (lit "toString")) = None.
Proof.
  split; [by vm_compute|]. split.
  - intros H.
    destruct (H [] (lit "pulsar") [pulse; flare] ltac:(by vm_compute))
      as [Hlen _].
    discriminate Hlen.
  - split; by vm_compute.
Qed.

End Variants.

(** ** Weather label *)

Section WeatherLabel.
Import Weather.

Lemma Qle_bool_false a b : Qle_bool a b = false → (b < a)%Q.
Proof.
  intros H. apply Qnot_le_lt. intros Hle.
  apply Qle_bool_iff in Hle. congruence.
Qed.

Lemma Qeq_bool_ne a b : ¬ (a == b)%Q → Qeq_bool a b = false.
Proof.
  intros H. destruct (Qeq_bool a b) eqn:E; [|done].
  by apply Qeq_bool_iff in E.
Qed.

Lemma in_range a b c :
  (a <= c <= b)%Q → Qle_bool a c && Qle_bool c b = true.
Proof.
  intros [H1 H2]. apply Qle_bool_iff in H1, H2. by rewrite H1, H2.
Qed.

Lemma out_of_range a b c :
  ¬ (a <= c <= b)%Q → Qle_bool a c && Qle_bool c b = false.
Proof.
  intros H. destruct (Qle_bool a c) eqn:E1, (Qle_bool c b) eqn:E2; try done.
  apply Qle_bool_iff in E1, E2. by destruct H.
Qed.

(** C7.  The label of a weather code follows the range table: 0 is CLEAR,
    1 to 3 CLOUDY, 45 to 48 FOGGY, 51 to 67 RAINY, 71 to 77 SNOWY, 80 to 99
    STORMY, and every code outside these ranges UNKNOWN; the label is always
    one of these seven. *)
Theorem getWeatherText_ranges :
  ∀ weatherCode : Q,
    let label := getWeatherText weatherCode in
    (weatherCode == 0 → label = "CLEAR"%string)%Q
    ∧ (1 <= weatherCode <= 3 → label = "CLOUDY"%string)%Q
    ∧ (45 <= weatherCode <= 48 → label = "FOGGY"%string)%Q
    ∧ (51 <= weatherCode <= 67 → label = "RAINY"%string)%Q
    ∧ (71 <= weatherCode <= 77 → label = "SNOWY"%string)%Q
    ∧ (80 <= weatherCode <= 99 → label = "STORMY"%string)%Q
    ∧ (¬ weatherCode == 0 → ¬ 1 <= weatherCode <= 3 →
       ¬ 45 <= weatherCode <= 48 → ¬ 51 <= weatherCode <= 67 →
       ¬ 71 <= weatherCode <= 77 → ¬ 80 <= weatherCode <= 99 →
       label = "UNKNOWN"%string)%Q
    ∧ label ∈ [ "CLEAR"; "CLOUDY"; "FOGGY"; "RAINY"; "SNOWY"; "STORMY";
                "UNKNOWN" ]%string.
Proof.
  intros c label. subst label. unfold getWeatherText.
  split; [intros H; apply Qeq_bool_iff in H; by rewrite H|].
  split.
  { intros H. rewrite Qeq_bool_ne by lra. by rewrite (in_range 1 3). }
  split.
  { intros H. rewrite Qeq_bool_ne by lra.
    rewrite (out_of_range 1 3) by lra. by rewrite (in_range 45 48). }
  split.
  { intros H. rewrite Qeq_bool_ne by lra.
    rewrite (out_of_range 1 3) by lra. rewrite (out_of_range 45 48) by lra.
    by rewrite (in_range 51 67). }
  split.
  { intros H. rewrite Qeq_bool_ne by lra.
    rewrite (out_of_range 1 3) by lra. rewrite (out_of_range 45 48) by lra.
    rewrite (out_of_range 51 67) by lra. by rewrite (in_range 71 77). }
  split.
  { intros H. rewrite Qeq_bool_ne by lra.
    rewrite (out_of_range 1 3) by lra. rewrite (out_of_range 45 48) by lra.
    rewrite (out_of_range 51 67) by lra. rewrite (out_of_range 71 77) by lra.
    by rewrite (in_range 80 99). }
  split.
  { intros H0 H1 H2 H3 H4 H5. rewrite Qeq_bool_ne by done.
    by rewrite !out_of_range. }
  destruct (Qeq_bool c 0); [by left|].
  destruct (_ && _); [by right; left|].
  destruct (_ && _); [by do 2 right; left|].
  destruct (_ && _); [by do 3 right; left|].
  destruct (_ && _); [by do 4 right; left|].
  destruct (_ && _); [by do 5 right; left|].
  by do 6 right; left.
Qed.

Lemma getWeatherText_ranges_witness :
  getWeatherText 0 = "CLEAR"%string
  ∧ getWeatherText 2 = "CLOUDY"%string
  ∧ getWeatherText 61 = "RAINY"%string
  ∧ getWeatherText 95 = "STORMY"%string
  ∧ getWeatherText 4 = "UNKNOWN"%string.
Proof.
  pose proof (getWeatherText_ranges 0) as (H0 & _).
  pose proof (getWeatherText_ranges 2) as (_ & H2 & _).
  pose proof (getWeatherText_ranges 61) as (_ & _ & _ & H61 & _).
  pose proof (getWeatherText_ranges 95) as (_ & _ & _ & _ & _ & H95 & _).
  pose proof (getWeatherText_ranges 4) as (_ & _ & _ & _ & _ & _ & H4 & _).
  split; [apply H0; reflexivity|].
  split; [apply H2; split; by vm_compute|].
  split; [apply H61; split; by vm_compute|].
  split; [apply H95; split; by vm_compute|].
  apply H4; intros H; lra.
Defined.

End WeatherLabel.

(** ** Scene advancement *)

Section Autoplay.
Import JS Catalog Playback.

Variable COSMIC_ENTITIES : list CosmicEntity.
Hypothesis two_entities : (2 ≤ length COSMIC_ENTITIES)%nat.

#[local] Abbreviation entityCount := (Z.of_nat (length COSMIC_ENTITIES)).
#[local] Abbreviation step := (checkSceneChange COSMIC_ENTITIES).

Lemma current_entity s :
  indices_ok COSMIC_ENTITIES s →
  ∃ e, COSMIC_ENTITIES !! Z.to_nat (currentEntityIndex s) = Some e
       ∧ index COSMIC_ENTITIES (currentEntityIndex s) = Some e.
Proof.
  intros [Hc _].
  destruct (lookup_lt_is_Some_2 COSMIC_ENTITIES
              (Z.to_nat (currentEntityIndex s))) as [e He]; [lia|].
  exists e. split; [done|]. unfold index.
  by destruct (Z.leb_spec 0 (currentEntityIndex s)); [|lia].
Qed.

Lemma next_index_ok c :
  0 ≤ c < entityCount →
  rem ((c + 1) mod entityCount + 1) entityCount
  = ((c + 1) mod entityCount + 1) mod entityCount.
Proof.
  intros Hc. unfold rem.
  pose proof (Z.mod_pos_bound (c + 1) entityCount ltac:(lia)).
  apply Z.rem_mod_nonneg; lia.
Qed.

Lemma mount_ok t0 tp :
  indices_ok COSMIC_ENTITIES (mount t0)
  ∧ progress_ok COSMIC_ENTITIES tp (mount t0).
Proof.
  split.
  - split; simpl; [lia|]. rewrite Z.mod_small; lia.
  - by intros e He.
Qed.

Lemma Qdiv_1000_le a b :
  a ≤ b → (inject_Z a / inject_Z 1000 <= inject_Z b / inject_Z 1000)%Q.
Proof.
  intros H. apply Qmult_le_compat_r; [|done]. by rewrite <- Zle_Qle.
Qed.

Lemma Qdiv_1000_nonneg a : 0 ≤ a → (0 <= inject_Z a / inject_Z 1000)%Q.
Proof.
  intros H. apply Qle_shift_div_l; [done|]. rewrite Qmult_0_l.
  by rewrite (Zle_Qle 0 a) in H.
Qed.

Lemma Qdiv_1000_lt_1 a : a < 1000 → (inject_Z a / inject_Z 1000 < 1)%Q.
Proof.
  intros H. apply Qlt_shift_div_r; [done|]. rewrite Qmult_1_l.
  by rewrite <- Zlt_Qlt.
Qed.

Lemma step_outcome now s :
  indices_ok COSMIC_ENTITIES s →
  ∃ s', step now s = Some s' ∧ outcome COSMIC_ENTITIES now s s'.
Proof.
  intros Hi. destruct (current_entity s Hi) as (e & He & Hidx).
  unfold checkSceneChange. rewrite Hidx. cbn [mbind option_bind].
  unfold transitionDuration.
  destruct (Z.leb_spec (duration e + 1000) (now - lastSceneChange s)).
  { eexists. split; [done|]. eapply Commit; [done..|].
    destruct Hi as [Hc ->]. by rewrite next_index_ok. }
  destruct (Z.leb_spec (duration e) (now - lastSceneChange s)),
    (isTransitioning s) eqn:Ht; cbn [andb negb].
  - eexists. split; [done|]. by eapply Fade.
  - eexists. split; [done|]. by eapply Start.
  - eexists. split; [done|]. by eapply Fade.
  - eexists. split; [done|]. by eapply Idle.
Qed.

Lemma outcome_indices now s s' :
  indices_ok COSMIC_ENTITIES s → outcome COSMIC_ENTITIES now s s' →
  indices_ok COSMIC_ENTITIES s'.
Proof.
  intros [Hc Hn] [e He Hel ->|e He Hel Ht ->|e He Hel Ht ->|e He Hel Ht ->];
    try done.
  split; cbn.
  - rewrite Hn. apply Z.mod_pos_bound. lia.
  - done.
Qed.

Lemma outcome_progress tp now s s' :
  tp ≤ now → progress_ok COSMIC_ENTITIES tp s →
  outcome COSMIC_ENTITIES now s s' → progress_ok COSMIC_ENTITIES now s'.
Proof.
  intros Hle Hp [e He Hel ->|e He Hel Ht ->|e He Hel Ht ->|e He Hel Ht ->].
  - by intros e' _.
  - intros e' He'. cbn in *. rewrite He in He'. injection He' as <-.
    specialize (Hp e He). rewrite Ht in Hp. rewrite Hp.
    split; [done|]. split; [apply Qdiv_1000_nonneg; lia | lia].
  - intros e' He'. cbn in *. rewrite He in He'. injection He' as <-.
    specialize (Hp e He). rewrite Ht in Hp. destruct Hp as (Hp0 & Hp1 & Hp2).
    split; [|split; [apply Qle_refl | lia]].
    eapply Qle_trans; [exact Hp0|]. eapply Qle_trans; [exact Hp1|].
    apply Qdiv_1000_le. lia.
  - intros e' He'. specialize (Hp e' He'). rewrite Ht in *. done.
Qed.

Lemma outcome_follows tp now s s' :
  tp ≤ now → indices_ok COSMIC_ENTITIES s → progress_ok COSMIC_ENTITIES tp s →
  outcome COSMIC_ENTITIES now s s' →
  follows COSMIC_ENTITIES s s'.
Proof.
  intros Hle [Hc Hn] Hp
    [e He Hel ->|e He Hel Ht ->|e He Hel Ht ->|e He Hel Ht ->].
  - right. by cbn.
  - left. cbn. split; [done | apply Qle_refl].
  - left. cbn. split; [done|].
    specialize (Hp e He). rewrite Ht in Hp. destruct Hp as (_ & Hp1 & _).
    eapply Qle_trans; [exact Hp1|]. apply Qdiv_1000_le. lia.
  - left. split; [done | apply Qle_refl].
Qed.

Lemma progress_ok_unit tp s :
  indices_ok COSMIC_ENTITIES s → progress_ok COSMIC_ENTITIES tp s →
  (0 <= transitionProgress s)%Q ∧ (transitionProgress s < 1)%Q.
Proof.
  intros Hi Hp. destruct (current_entity s Hi) as (e & He & _).
  specialize (Hp e He). destruct (isTransitioning s).
  - destruct Hp as (H0 & H1 & H2). split; [done|].
    eapply Qle_lt_trans; [exact H1|]. apply Qdiv_1000_lt_1. lia.
  - rewrite Hp. done.
Qed.

Lemma trace_follows ticks : ∀ tp s,
  indices_ok COSMIC_ENTITIES s → progress_ok COSMIC_ENTITIES tp s →
  Forall (Z.le tp) ticks → StronglySorted Z.le ticks →
  length (trace COSMIC_ENTITIES ticks s) = S (length ticks)
  ∧ ∀ i a b,
      trace COSMIC_ENTITIES ticks s !! i = Some a →
      trace COSMIC_ENTITIES ticks s !! S i = Some b →
      indices_ok COSMIC_ENTITIES a ∧ follows COSMIC_ENTITIES a b
      ∧ (0 <= transitionProgress b)%Q ∧ (transitionProgress b < 1)%Q.
Proof.
  induction ticks as [|now rest IH]; intros tp s Hi Hp Hge Hsorted.
  { split; [done|]. intros i a b _ Hb. by destruct i. }
  destruct (step_outcome now s Hi) as (s' & Hstep & Hout).
  apply Forall_cons in Hge as [Hnow Hge].
  apply StronglySorted_inv in Hsorted as [Hsorted Hrest].
  pose proof (outcome_indices now s s' Hi Hout) as Hi'.
  pose proof (outcome_progress tp now s s' Hnow Hp Hout) as Hp'.
  destruct (IH now s' Hi' Hp' Hrest Hsorted) as [Hlen Hsteps].
  cbn [trace]. rewrite Hstep. split; [cbn; by rewrite Hlen|].
  intros [|i] a b Ha Hb.
  - cbn in Ha. injection Ha as <-.
    cbn in Hb. destruct rest; cbn in Hb; [|destruct (step _ _)];
      injection Hb as <-;
      (split; [done|]; split; [by eapply outcome_follows|];
       by eapply progress_ok_unit).
  - cbn in Ha, Hb. by eapply Hsteps.
Qed.

(** C4.  Under auto-play, along any non-decreasing sequence of tick times,
    every tick is handled, and each step of the resulting sequence of states
    either keeps the active entity, with a transition progress that does not
    decrease, or moves to the next entity of the catalog, modulo its length,
    with the progress back at 0 and the machine back in Showing.  The
    progress stays in [0, 1). *)
Theorem autoplay_follows_catalog_order :
  ∀ (t0 : Z) (ticks : list Z),
    StronglySorted Z.le ticks →
    let states := trace COSMIC_ENTITIES ticks (mount t0) in
    length states = S (length ticks)
    ∧ ∀ i s s',
        states !! i = Some s → states !! S i = Some s' →
        0 ≤ currentEntityIndex s < entityCount
        ∧ ((currentEntityIndex s' = currentEntityIndex s
            ∧ (transitionProgress s <= transitionProgress s')%Q)
           ∨ (currentEntityIndex s' = (currentEntityIndex s + 1) mod entityCount
              ∧ transitionProgress s' = 0%Q
              ∧ isTransitioning s' = false))
        ∧ (0 <= transitionProgress s')%Q ∧ (transitionProgress s' < 1)%Q.
Proof.
  intros t0 ticks Hsorted states. subst states.
  destruct ticks as [|now rest].
  { split; [done|]. intros i s s' _ Hs'. by destruct i. }
  destruct (mount_ok t0 now) as [Hi Hp].
  assert (Forall (Z.le now) (now :: rest)) as Hge.
  { apply Forall_cons. split; [lia|].
    by apply StronglySorted_inv in Hsorted as [_ ?]. }
  destruct (trace_follows (now :: rest) now (mount t0) Hi Hp Hge Hsorted)
    as [Hlen Hsteps].
  split; [done|]. intros i s s' Hs Hs'.
  destruct (Hsteps i s s' Hs Hs') as ([Hc _] & Hf & H0 & H1).
  done.
Qed.




End Autoplay.

Section Scenario.
Import JS Catalog Playback.



(** Ticked strictly every 16 ms, the same catalog is at progress 496/1000 after
    the tick at 2496 ms, the last one before 2500 ms, and commits at the tick at
    3008 ms, the first one from 3000 ms on. *)
Lemma every16_only :
  (transitionProgress <$> run scenario_catalog (every16 0 157) (mount 0))
  = Some (inject_Z 496 / inject_Z 1000)%Q
  ∧ (currentEntityIndex <$> run scenario_catalog (every16 0 188) (mount 0))
    = Some 0
  ∧ run scenario_catalog (every16 0 189) (mount 0)
    = Some {| currentEntityIndex := 1; nextEntityIndex := 2;
              transitionProgress := 0; isTransitioning := false;
              lastSceneChange := 3008 |}.
Proof. repeat split; by vm_compute. Qed.

Lemma autoplay_follows_catalog_order_witness :
  length (trace scenario_catalog [0; 2000; 2500; 3000; 3100] (mount 0))
  = 6%nat.
Proof.
  refine (proj1 (autoplay_follows_catalog_order scenario_catalog _ 0
                   [0; 2000; 2500; 3000; 3100] _)).
  - cbn. lia.
  - repeat (apply SSorted_cons; [|repeat (apply Forall_cons; split; [lia|]);
                                  apply Forall_nil_2]).
    apply SSorted_nil.
Defined.

End Scenario.

(** ** Interactive mode *)

Section Interactive.
Import JS Catalog Host.

Lemma click_in_range total c p :
  0 < total → 0 ≤ manualScene p < total →
  0 ≤ manualScene (click total c p) < total.
Proof.
  intros Ht Hp. unfold click, rem.
  destruct c, (isInteractiveMode p); cbn; try done.
  - rewrite Z.rem_mod_nonneg by lia. apply Z.mod_pos_bound. lia.
  - rewrite Z.rem_mod_nonneg by lia. apply Z.mod_pos_bound. lia.
Qed.

Lemma clicks_in_range total cs : ∀ p,
  0 < total → 0 ≤ manualScene p < total →
  0 ≤ manualScene (clicks total cs p) < total.
Proof.
  induction cs as [|c cs IH]; intros p Ht Hp; [done|].
  cbn. apply IH; [done|]. by apply click_in_range.
Qed.

(** C5.  Whatever sequence of clicks the page has received, the manual scene
    index it passes to the widget lies in [0, entity count): the decrement
    adds the entity count before taking the remainder, so it wraps from 0 to
    the last entity, never to a negative index.  In interactive mode
    [render] shows the entity at that index modulo the entity count, which
    exists; it never cross-fades, and the scene-advance effect leaves the
    playback state alone. *)
Theorem interactive_scene_index :
  ∀ (COSMIC_ENTITIES : list CosmicEntity) (cs : list Click),
    COSMIC_ENTITIES ≠ [] →
    let totalEntities := Z.of_nat (length COSMIC_ENTITIES) in
    let p := clicks totalEntities cs initial in
    0 ≤ manualScene p < totalEntities
    ∧ (∀ currentEntityIndex,
         activeEntityIndex totalEntities true (manualScene p) currentEntityIndex
         = manualScene p mod totalEntities
         ∧ is_Some (index COSMIC_ENTITIES
                      (activeEntityIndex totalEntities true (manualScene p)
                         currentEntityIndex)))
    ∧ (isInteractiveMode p = true →
       manualScene (click totalEntities PreviousScene p)
       = (manualScene p - 1) mod totalEntities
       ∧ manualScene (click totalEntities NextScene p)
         = (manualScene p + 1) mod totalEntities)
    ∧ (∀ manualScene currentEntityIndex,
         0 ≤ manualScene →
         activeEntityIndex totalEntities true manualScene currentEntityIndex
         = manualScene mod totalEntities)
    ∧ (∀ isTransitioning, crossFades true isTransitioning = false)
    ∧ (∀ now s, sceneEffect COSMIC_ENTITIES true now s = Some s).
Proof.
  intros cat cs Hne total p.
  assert (0 < total) as Ht by (subst total; destruct cat; [done | cbn; lia]).
  assert (0 ≤ manualScene p < total) as Hp.
  { subst p. apply clicks_in_range; [done|]. cbn. lia. }
  split; [done|]. split.
  { intros cur. unfold activeEntityIndex, rem.
    rewrite Z.rem_mod_nonneg by lia. split; [done|].
    rewrite Z.mod_small by lia. unfold index.
    destruct (Z.leb_spec 0 (manualScene p)); [|lia].
    apply lookup_lt_is_Some_2. lia. }
  split.
  { intros Hi. unfold click, rem. rewrite Hi. cbn.
    rewrite !Z.rem_mod_nonneg by lia. split; [|done].
    replace (manualScene p - 1 + total) with (manualScene p - 1 + 1 * total)
      by lia.
    by rewrite Z_mod_plus_full. }
  split.
  { intros m cur Hm. unfold activeEntityIndex, rem.
    by rewrite Z.rem_mod_nonneg by lia. }
  split; [by intros []|done].
Qed.

Lemma interactive_scene_index_witness :
  manualScene (clicks 3 [ToggleMode; PreviousScene] initial) = 2
  ∧ manualScene (clicks 3 [ToggleMode; PreviousScene; NextScene] initial) = 0.
Proof.
  pose proof (interactive_scene_index Playback.scenario_catalog [ToggleMode]
                ltac:(discriminate)) as (_ & _ & Hnav & _).
  destruct (Hnav eq_refl) as [Hprev _].
  pose proof (interactive_scene_index Playback.scenario_catalog
                [ToggleMode; PreviousScene] ltac:(discriminate))
    as (_ & _ & Hnav' & _).
  destruct (Hnav' eq_refl) as [_ Hnext].
  split; [exact Hprev | exact Hnext].
Defined.

End Interactive.

(** ** The particle pool *)

Section Pool.
Import JS Style Catalog Particles.

Variable random : nat → Q.

Lemma length_removelast {A} (l : list A) :
  length (removelast l) = pred (length l).
Proof.
  rewrite removelast_firstn_len. rewrite length_take. lia.
Qed.

Lemma pushWhile_grows fuel : ∀ target width height variant colors particles n,
  target - Z.of_nat (length particles) ≤ Z.of_nat fuel →
  Z.of_nat
    (length (pushWhile random fuel target width height variant colors
               particles n).1)
  = Z.max (Z.of_nat (length particles)) target
  ∧ particles
    `prefix_of` (pushWhile random fuel target width height variant colors
                   particles n).1.
Proof.
  induction fuel as [|fuel IH]; intros target w h v c ps n Hfuel;
    cbn [pushWhile].
  { split; [cbn; lia | done]. }
  destruct (Z.ltb_spec (Z.of_nat (length ps)) target) as [Hlt|Hge].
  - unfold mbind, Draw_bind.
    destruct (createParticle random w h (Some v) (Some c) n) as [p n'].
    destruct (IH target w h v c (ps ++ [p]) n') as [Hlen Hpre].
    { rewrite length_app. cbn. lia. }
    split.
    + rewrite Hlen, length_app. cbn. lia.
    + etrans; [|exact Hpre]. by apply prefix_app_r.
  - split; [cbn; lia | done].
Qed.

Lemma popWhile_shrinks fuel : ∀ target particles,
  0 ≤ target → (length particles ≤ fuel)%nat →
  popWhile fuel target particles = firstn (Z.to_nat target) particles.
Proof.
  induction fuel as [|fuel IH]; intros target ps Ht Hfuel; cbn.
  { destruct ps; [|cbn in Hfuel; lia]. by rewrite take_nil. }
  destruct (Z.ltb_spec target (Z.of_nat (length ps))) as [Hlt|Hge].
  - rewrite IH; [|done|rewrite length_removelast; lia].
    rewrite removelast_firstn_len, take_take. f_equal. lia.
  - rewrite take_ge; [done | lia].
Qed.

Lemma targets_ok k : 0 ≤ k < 256 → target_ok k = true.
Proof.
  intros Hk. apply (below_forallb target_ok 256); [by vm_compute | lia].
Qed.

(** C9, amended.  After the pool adjustment of [renderEntity] the pool has
    [max(40, floor(90 × densityMultiplier))] particles, the density being
    that of the variant derived from the entity's style label and type.
    This is [floor(90 × densityMultiplier)], between 62 and 288, for every
    such variant.  A pool that was smaller is a prefix of the adjusted pool:
    new particles are appended.  A pool that was larger is cut down to its
    first particles: the others are dropped from the end. *)
Theorem adjustPool_length :
  ∀ (animationStyle entityType : jsstring) (width height : Q)
    (colors : Palette) (particles : list Particle) (n : nat),
    let variant := getStyleVariant animationStyle entityType in
    let target := Z.max 40 (floor (90 * densityMultiplier variant)%float) in
    let pool :=
      (adjustPool random width height variant colors particles n).1 in
    Z.of_nat (length pool) = target
    ∧ target = floor (90 * densityMultiplier variant)%float
    ∧ 62 ≤ target ≤ 288
    ∧ (Z.of_nat (length particles) ≤ target → particles `prefix_of` pool)
    ∧ (target ≤ Z.of_nat (length particles) →
       pool = firstn (Z.to_nat target) particles).
Proof.
  intros a t w h c ps n variant target pool.
  destruct (variant_fields a t)
    as (k2 & k10 & k18 & k24 & k5 & (_ & H10 & _) & _ & E10 & _).
  cbv zeta in E10. fold variant in E10.
  pose proof (targets_ok k10 H10) as Hok. unfold target_ok, target_of in Hok.
  rewrite <- E10 in Hok. fold target in Hok.
  repeat (apply andb_prop in Hok as [Hok ?]).
  assert (62 ≤ target ≤ 288) as Hrange by lia.
  subst pool. unfold adjustPool. fold target.
  unfold targetParticleCount. fold target.
  unfold mbind, Draw_bind, mret, Draw_ret.
  destruct (pushWhile random (Z.to_nat target) target w h variant c ps n)
    as [grown n'] eqn:E.
  destruct (pushWhile_grows (Z.to_nat target) target w h variant c ps n
              ltac:(lia)) as [Hlen Hpre].
  rewrite E in Hlen, Hpre. cbn [fst] in *.
  rewrite popWhile_shrinks by lia.
  split; [rewrite length_take; lia|].
  split; [lia|]. split; [done|]. split.
  - intros Hsmall. rewrite take_ge by lia. done.
  - intros Hlarge. destruct Hpre as [added ->].
    rewrite length_app in Hlen.
    assert (added = []) as -> by (destruct added; [done | cbn in Hlen; lia]).
    by rewrite app_nil_r.
Qed.

End Pool.

Section PoolExamples.
Import JS Style Catalog Particles.

Lemma adjustPool_length_witness :
  length (adjustPool (λ _, 0%Q) 800 600
            (getStyleVariant (lit "swirl") (lit "blackhole"))
            sample_palette [] 0%nat).1 = 76%nat.
Proof.
  pose proof (adjustPool_length (λ _, 0%Q) (lit "swirl") (lit "blackhole")
                800 600 sample_palette [] 0%nat) as (Hlen & _).
  apply Nat2Z.inj. rewrite Hlen. by vm_compute.
Defined.

(** C9 as stated fails: for the variant of style "swirl" on a black hole,
    [90 × densityMultiplier] is not an integer (it lies strictly between 76
    and 77), and the adjusted pool has 76 particles, not
    [max(40, 90 × densityMultiplier)]. *)
Lemma pool_length_is_floored :
  length (adjustPool (λ _, 0%Q) 800 600
            (getStyleVariant (lit "swirl") (lit "blackhole"))
            sample_palette [] 0%nat).1 = 76%nat
  ∧ (76 < exact (90 * densityMultiplier
                        (getStyleVariant (lit "swirl") (lit "blackhole"))))%Q
  ∧ ¬ (inject_Z (Z.of_nat
         (length (adjustPool (λ _, 0%Q) 800 600
                    (getStyleVariant (lit "swirl") (lit "blackhole"))
                    sample_palette [] 0%nat).1))
       == Qmax 40 (exact (90 * densityMultiplier
                                 (getStyleVariant (lit "swirl")
                                    (lit "blackhole")))))%Q.
Proof.
  split; [by vm_compute|]. split; [by vm_compute|].
  intros H. vm_compute in H. discriminate H.
Qed.

End PoolExamples.

(** ** Particle updates *)

Section Update.
Import JS Style Catalog Particles.

Variable random : nat → Q.
Variable sin : Q → Q.
Hypothesis random_unit : ∀ i, (0 <= random i)%Q ∧ (random i < 1)%Q.

Variables width height : Q.
Hypothesis width_pos : (0 < width)%Q.
Hypothesis height_pos : (0 < height)%Q.

Variable colors : Palette.

Lemma Qltb_false a b : Qltb a b = false → (b <= a)%Q.
Proof.
  unfold Qltb. intros H. apply negb_false_iff in H. by apply Qle_bool_iff.
Qed.

Lemma scaled_draw i w :
  (0 < w)%Q → (0 <= random i * w)%Q ∧ (random i * w <= w)%Q.
Proof.
  intros Hw. destruct (random_unit i) as [H0 H1]. split.
  - apply Qmult_le_0_compat; [done | by apply Qlt_le_weak].
  - rewrite <- (Qmult_1_l w) at 2.
    apply Qmult_le_compat_r; by apply Qlt_le_weak.
Qed.

Lemma palette_pick (q : Q) :
  (0 <= q)%Q →
  ∃ c, index [primary colors; secondary colors; accent colors]
         (rem (Qfloor q) 3) = Some c
       ∧ c ∈ [primary colors; secondary colors; accent colors].
Proof.
  intros Hq.
  assert (0 ≤ Qfloor q) as Hf.
  { change 0 with (Qfloor 0). by apply Qfloor_resp_le. }
  unfold rem. rewrite Z.rem_mod_nonneg by lia.
  pose proof (Z.mod_pos_bound (Qfloor q) 3 ltac:(lia)) as Hm.
  unfold index. destruct (Z.leb_spec 0 (Qfloor q mod 3)); [|lia].
  destruct (lookup_lt_is_Some_2
              [primary colors; secondary colors; accent colors]
              (Z.to_nat (Qfloor q mod 3))) as [c Hc]; [cbn; lia|].
  exists c. split; [exact Hc|]. eapply list_elem_of_lookup_2. exact Hc.
Qed.

Lemma updateParticle_alive variant p n :
  (0 <= exact (0.4 + intensity variant * 0.2)%float)%Q →
  alive_before p →
  let p' := (updateParticle random sin width height colors variant p n).1 in
  alive_inside width height p'
  ∧ updated random width height colors variant p p'.
Proof.
  intros Hdec [Hlife Hmax]. unfold updateParticle, updated.
  destruct (expired width height (advance variant p)) eqn:E.
  - unfold respawn, Math_random, mbind, Draw_bind, mret, Draw_ret.
    cbn [fst x y vx vy life maxLife char color advance].
    destruct (scaled_draw n width width_pos) as [Hx0 Hx1].
    destruct (scaled_draw (S n) height height_pos) as [Hy0 Hy1].
    split.
    + repeat split; try assumption. apply Qle_refl.
    + split; [reflexivity|]. split; [reflexivity|].
      split; [reflexivity|].
      split; [by exists n, (S n)|].
      split; [by exists (S (S n)), (S (S (S n)))|].
      apply palette_pick.
      apply Qmult_le_0_compat; [apply Qabs_nonneg | done].
  - cbn [fst mret Draw_ret].
    unfold expired in E. repeat (apply orb_false_elim in E as [E ?]).
    apply Qle_bool_false in E.
    repeat match goal with H : Qltb _ _ = false |- _ =>
             apply Qltb_false in H end.
    split; [|done].
    repeat split; try assumption.
    cbn [advance life maxLife] in *.
    eapply Qle_trans; [|exact Hlife].
    rewrite <- (Qplus_0_r (life p)) at 2.
    apply Qplus_le_compat; [apply Qle_refl|].
    by apply (Qopp_le_compat 0).
Qed.

Lemma forEach_pointwise (f : Particle → Draw Particle)
    (P : Particle → Prop) (R : Particle → Particle → Prop) :
  (∀ p n, P p → R p (f p n).1) →
  ∀ particles n, Forall P particles →
    Forall2 R particles (forEach f particles n).1.
Proof.
  intros Hf particles. induction particles as [|p rest IH]; intros n HP.
  { constructor. }
  apply Forall_cons in HP as [Hp Hrest].
  cbn [forEach]. unfold mbind, Draw_bind, mret, Draw_ret.
  pose proof (Hf p n Hp) as Hhead.
  destruct (f p n) as [p' n'].
  pose proof (IH n' Hrest) as Htail.
  destruct (forEach f rest n') as [rest' n''].
  by constructor.
Qed.

Lemma decay_nonneg animationStyle entityType :
  (0 <= exact (0.4 + intensity (getStyleVariant animationStyle entityType)
                     * 0.2)%float)%Q.
Proof.
  destruct (variant_fields animationStyle entityType)
    as (k2 & k10 & k18 & k24 & k5 & (_ & _ & H18 & _) & _ & _ & E18 & _).
  cbv zeta in E18. rewrite E18. apply Qle_bool_iff.
  apply (below_forallb decay_ok 256); [by vm_compute | lia].
Qed.


End Update.

Section UpdateExample.
Import JS Style Catalog Particles.


End UpdateExample.

(** ** Ordered dithering *)

Section Dithering.
Import JS Catalog Dither.

Lemma ToUint8Clamp_byte v : byte (ToUint8Clamp v).
Proof.
  unfold byte, ToUint8Clamp.
  destruct (Prim2SF v) as [s|s| |s m e]; try destruct s; lia.
Qed.

Variables tint accent : RGB.
Variable width : nat.

#[local] Abbreviation at_pixel x y := ((y * width + x) * 4)%nat.

Lemma ditherPixel_length x y data :
  length (ditherPixel tint accent width x y data) = length data.
Proof.
  unfold ditherPixel. destruct (_ <? _)%float; by rewrite !length_insert.
Qed.

Lemma ditherPixel_bytes x y data :
  Forall byte data → Forall byte (ditherPixel tint accent width x y data).
Proof.
  intros H. unfold ditherPixel.
  destruct (_ <? _)%float;
    repeat (apply Forall_insert; [|apply ToUint8Clamp_byte]); exact H.
Qed.

Lemma ditherPixel_elsewhere x y data j :
  (j < at_pixel x y ∨ at_pixel x y + 2 < j)%nat →
  ditherPixel tint accent width x y data !! j = data !! j.
Proof.
  intros H. unfold ditherPixel.
  destruct (_ <? _)%float; rewrite !list_lookup_insert_ne by lia; done.
Qed.

Lemma ditherPixel_here x y data R G B :
  data !! at_pixel x y = Some R →
  data !! (at_pixel x y + 1)%nat = Some G →
  data !! (at_pixel x y + 2)%nat = Some B →
  let out := ditherPixel tint accent width x y data in
  (out !! at_pixel x y, out !! (at_pixel x y + 1)%nat,
   out !! (at_pixel x y + 2)%nat)
  = (Some (pixel_out tint accent x y R G B).1.1,
     Some (pixel_out tint accent x y R G B).1.2,
     Some (pixel_out tint accent x y R G B).2).
Proof.
  intros HR HG HB out. subst out.
  pose proof (lookup_lt_Some _ _ _ HR) as LR.
  pose proof (lookup_lt_Some _ _ _ HG) as LG.
  pose proof (lookup_lt_Some _ _ _ HB) as LB.
  unfold ditherPixel, pixel_out, luma, channel. cbv zeta.
  set (i := at_pixel x y) in *.
  rewrite HR, HG, HB. cbn [default from_option id].
  destruct (_ <? _)%float; unfold tinted, darkened; cbn [fst snd].
  all: rewrite (list_lookup_insert_ne data i (i + 1)) by lia.
  all: rewrite (list_lookup_insert_ne _ (i + 1) (i + 2)) by lia.
  all: rewrite (list_lookup_insert_ne data i (i + 2)) by lia.
  all: rewrite HG, HB; cbn [default from_option id].
  all: rewrite (list_lookup_insert_ne _ (i + 2) i) by lia.
  all: rewrite (list_lookup_insert_ne _ (i + 1) i) by lia.
  all: rewrite (list_lookup_insert_ne _ (i + 2) (i + 1)) by lia.
  all: rewrite !list_lookup_insert_eq by (rewrite ?length_insert; lia).
  all: reflexivity.
Qed.

Lemma row_S k y data :
  row tint accent width (S k) y data
  = ditherPixel tint accent width k y (row tint accent width k y data).
Proof. unfold row. by rewrite seq_S, fold_left_app. Qed.

Lemma row_length k y data :
  length (row tint accent width k y data) = length data.
Proof.
  induction k as [|k IH]; [done|]. by rewrite row_S, ditherPixel_length.
Qed.

Lemma row_bytes k y data :
  Forall byte data → Forall byte (row tint accent width k y data).
Proof.
  intros H. induction k as [|k IH]; [done|].
  rewrite row_S. by apply ditherPixel_bytes.
Qed.

Lemma row_elsewhere k y data j :
  (j < at_pixel 0 y ∨ at_pixel k y ≤ j)%nat →
  row tint accent width k y data !! j = data !! j.
Proof.
  induction k as [|k IH]; intros Hj; [done|].
  rewrite row_S, ditherPixel_elsewhere by lia. apply IH. lia.
Qed.

Lemma row_dithered k y data :
  (at_pixel k y ≤ length data)%nat →
  ∀ x, (x < k)%nat →
    dithered tint accent width data (row tint accent width k y data) x y.
Proof.
  induction k as [|k IH]; intros Hlen x Hx; [lia|].
  rewrite row_S.
  destruct (decide (x = k)) as [->|Hne].
  - destruct (lookup_lt_is_Some_2 data (at_pixel k y)) as [R HR]; [lia|].
    destruct (lookup_lt_is_Some_2 data (at_pixel k y + 1)) as [G HG]; [lia|].
    destruct (lookup_lt_is_Some_2 data (at_pixel k y + 2)) as [B HB]; [lia|].
    destruct (lookup_lt_is_Some_2 data (at_pixel k y + 3)) as [A HA]; [lia|].
    exists R, G, B, A. do 4 (split; [assumption|]).
    pose proof (ditherPixel_here k y (row tint accent width k y data) R G B)
      as Hhere.
    rewrite !row_elsewhere in Hhere by lia.
    specialize (Hhere HR HG HB). cbv zeta in Hhere.
    injection Hhere as -> -> ->.
    do 3 (split; [reflexivity|]).
    rewrite ditherPixel_elsewhere by lia. rewrite row_elsewhere by lia. done.
  - destruct (IH ltac:(lia) x ltac:(lia))
      as (R & G & B & A & HR & HG & HB & HA & OR & OG & OB & OA).
    exists R, G, B, A. do 4 (split; [assumption|]).
    rewrite !ditherPixel_elsewhere by lia. done.
Qed.

Lemma rows_S m data :
  rows tint accent width (S m) data
  = row tint accent width width m (rows tint accent width m data).
Proof. unfold rows. by rewrite seq_S, fold_left_app. Qed.

Lemma rows_length m data : length (rows tint accent width m data) = length data.
Proof.
  induction m as [|m IH]; [done|]. by rewrite rows_S, row_length.
Qed.

Lemma rows_bytes m data :
  Forall byte data → Forall byte (rows tint accent width m data).
Proof.
  intros H. induction m as [|m IH]; [done|].
  rewrite rows_S. by apply row_bytes.
Qed.

Lemma rows_elsewhere m data j :
  (at_pixel 0 m ≤ j)%nat → rows tint accent width m data !! j = data !! j.
Proof.
  induction m as [|m IH]; intros Hj; [done|].
  rewrite rows_S, row_elsewhere by lia. apply IH. lia.
Qed.

Lemma rows_dithered m data :
  (at_pixel 0 m ≤ length data)%nat →
  ∀ x y, (x < width)%nat → (y < m)%nat →
    dithered tint accent width data (rows tint accent width m data) x y.
Proof.
  induction m as [|m IH]; intros Hlen x y Hx Hy; [lia|].
  rewrite rows_S.
  destruct (decide (y = m)) as [->|Hne].
  - destruct (row_dithered width m (rows tint accent width m data)
                ltac:(rewrite rows_length; lia) x Hx)
      as (R & G & B & A & HR & HG & HB & HA & OR & OG & OB & OA).
    rewrite rows_elsewhere in HR, HG, HB, HA by nia.
    by exists R, G, B, A.
  - destruct (IH ltac:(lia) x y Hx ltac:(lia))
      as (R & G & B & A & HR & HG & HB & HA & OR & OG & OB & OA).
    exists R, G, B, A. do 4 (split; [assumption|]).
    assert (at_pixel x y + 3 < at_pixel 0 m)%nat by nia.
    rewrite !row_elsewhere by lia. done.
Qed.

End Dithering.

Section DitheringPass.
Import JS Catalog Dither.

Lemma hexDigit_range c d : hexDigit c = Some d → 0 ≤ d ≤ 15.
Proof.
  unfold hexDigit. intros H.
  repeat match type of H with
    | (if ?b then _ else _) = _ => destruct b eqn:?
    end; try discriminate; injection H as <-; lia.
Qed.

Lemma parsePair_byte hi lo v : parsePair hi lo = Some v → byte v.
Proof.
  unfold parsePair. intros H.
  destruct (hexDigit hi) as [h|] eqn:Eh; [|discriminate].
  destruct (hexDigit lo) as [l|] eqn:El; [|discriminate].
  cbn in H. injection H as <-.
  apply hexDigit_range in Eh, El. unfold byte. lia.
Qed.

Lemma hexToRgb_bytes hex :
  byte (r (hexToRgb hex)) ∧ byte (g (hexToRgb hex)) ∧ byte (b (hexToRgb hex)).
Proof.
  unfold hexToRgb.
  set (digits := match hex with 35 :: rest => rest | _ => hex end).
  destruct digits as [|r1 [|r2 [|g1 [|g2 [|b1 [|b2 [|? ?]]]]]]];
    try (cbn; unfold byte; lia).
  destruct (parsePair r1 r2) as [rv|] eqn:Er; [|cbn; unfold byte; lia].
  destruct (parsePair g1 g2) as [gv|] eqn:Eg; [|cbn; unfold byte; lia].
  destruct (parsePair b1 b2) as [bv|] eqn:Eb; [|cbn; unfold byte; lia].
  cbn. repeat split; eapply parsePair_byte; eassumption.
Qed.

Lemma threshold_entry x y :
  ∃ m, (ditherMatrix !! (y mod 4)%nat) ≫= (λ row, row !! (x mod 4)%nat)
       = Some m
       ∧ threshold x y = (num m / 16 * 255)%float.
Proof.
  unfold threshold.
  pose proof (Nat.mod_upper_bound y 4 ltac:(lia)) as Hy.
  pose proof (Nat.mod_upper_bound x 4 ltac:(lia)) as Hx.
  destruct (y mod 4)%nat as [|[|[|[|?]]]]; [| | | |lia];
    (destruct (x mod 4)%nat as [|[|[|[|?]]]]; [| | | |lia]);
    eexists; (split; [reflexivity|reflexivity]).
Qed.

(** C6.  On an image buffer of [width × height] pixels with channels in
    [0, 255], [applyEnhancedDithering] returns a buffer of the same length
    whose channels all lie in [0, 255], and which depends on nothing but the
    buffer and the palette.  Pixel by pixel, with [gray] the luma
    [0.299 R + 0.587 G + 0.114 B] of the pixel before the pass and
    [threshold] the entry of the 4 × 4 matrix at [(y mod 4, x mod 4)]
    divided by 16 and multiplied by 255: when [gray] exceeds the threshold
    each colour channel becomes 70% of itself plus 20% of the secondary
    colour plus 10% of the accent colour scaled by [gray / 255], capped at
    255; otherwise each colour channel becomes 15% of itself.  Stores round
    to the nearest byte, and the alpha channel is kept. *)
Theorem applyEnhancedDithering_bytes :
  ∀ (data : list Z) (width height : nat) (colors : Palette),
    length data = (width * height * 4)%nat →
    Forall (λ c, 0 ≤ c ≤ 255) data →
    let tint := hexToRgb (secondary colors) in
    let accent := hexToRgb (Catalog.accent colors) in
    let out := applyEnhancedDithering data width height colors in
    length out = length data
    ∧ Forall (λ c, 0 ≤ c ≤ 255) out
    ∧ (∀ data' colors',
         data' = data → colors' = colors →
         applyEnhancedDithering data' width height colors' = out)
    ∧ ∀ x y, (x < width)%nat → (y < height)%nat →
        let i := ((y * width + x) * 4)%nat in
        ∃ R G B A m,
          data !! i = Some R
          ∧ data !! (i + 1)%nat = Some G
          ∧ data !! (i + 2)%nat = Some B
          ∧ data !! (i + 3)%nat = Some A
          ∧ (ditherMatrix !! (y mod 4)%nat) ≫= (λ row, row !! (x mod 4)%nat)
            = Some m
          ∧ let threshold := (num m / 16 * 255)%float in
            let gray :=
              (num R * 0.299 + num G * 0.587 + num B * 0.114)%float in
            let tintStrength := (gray / 255)%float in
            ((threshold <? gray)%float = true →
             out !! i
             = Some (ToUint8Clamp
                       (Math_min 255 (num R * 0.7 + num (r tint) * 0.2
                                      + num (r accent) * 0.1 * tintStrength)))
             ∧ out !! (i + 1)%nat
               = Some (ToUint8Clamp
                         (Math_min 255 (num G * 0.7 + num (g tint) * 0.2
                                        + num (g accent) * 0.1 * tintStrength)))
             ∧ out !! (i + 2)%nat
               = Some (ToUint8Clamp
                         (Math_min 255 (num B * 0.7 + num (b tint) * 0.2
                                        + num (b accent) * 0.1 * tintStrength))))
            ∧ ((threshold <? gray)%float = false →
               out !! i = Some (ToUint8Clamp (num R * 0.15))
               ∧ out !! (i + 1)%nat = Some (ToUint8Clamp (num G * 0.15))
               ∧ out !! (i + 2)%nat = Some (ToUint8Clamp (num B * 0.15)))
            ∧ out !! (i + 3)%nat = Some A.
Proof.
  intros data width height colors Hlen Hbytes tint accent out.
  assert (out = rows tint accent width height data) as Hout by reflexivity.
  split; [rewrite Hout; apply rows_length|].
  split; [rewrite Hout; by apply rows_bytes|].
  split; [by intros ? ? -> ->|].
  intros x y Hx Hy i.
  destruct (rows_dithered tint accent width height data ltac:(lia) x y Hx Hy)
    as (R & G & B & A & HR & HG & HB & HA & OR & OG & OB & OA).
  destruct (threshold_entry x y) as (m & Hm & Ht).
  rewrite <- Hout in OR, OG, OB, OA.
  exists R, G, B, A, m. fold i in HR, HG, HB, HA, OR, OG, OB, OA.
  do 5 (split; [assumption|]).
  cbv zeta. rewrite <- Ht.
  unfold pixel_out, luma in OR, OG, OB.
  split; [|split; [|exact OA]]; intros Hcmp; rewrite Hcmp in OR, OG, OB;
    (split; [exact OR | split; [exact OG | exact OB]]).
Qed.

Lemma applyEnhancedDithering_bytes_witness :
  length (applyEnhancedDithering sample_image 2 2 sample_palette) = 16%nat
  ∧ Forall (λ c, 0 ≤ c ≤ 255)
      (applyEnhancedDithering sample_image 2 2 sample_palette).
Proof.
  pose proof (applyEnhancedDithering_bytes sample_image 2 2 sample_palette
                eq_refl) as H.
  assert (Forall (λ c, 0 ≤ c ≤ 255) sample_image) as Hb.
  { repeat (apply Forall_cons; split; [lia|]). apply Forall_nil_2. }
  destruct (H Hb) as (Hlen & Hout & _).
  split; [exact Hlen | exact Hout].
Defined.

End DitheringPass.

(** * Further properties of the code *)

(** ** The hash as a polynomial, and the fields it feeds *)

Section HashPolynomial.
Import JS Style HashSum.

Lemma fold_polynomial s : ∀ h h' k,
  h = h' + k * 2 ^ 32 → - 2 ^ 31 ≤ h < 2 ^ 31 →
  fold_left (λ h c, ToInt32 (31 * h + c)) s h = ToInt32 (polynomial s h').
Proof.
  induction s as [|c s IH]; intros h h' k Hk Hh; cbn.
  - rewrite <- (ToInt32_small h Hh). rewrite Hk. apply ToInt32_shift.
  - destruct (ToInt32_wraps (31 * h + c)) as [k2 E2].
    apply (IH _ _ (31 * k + k2)); [|apply ToInt32_range].
    rewrite E2, Hk. lia.
Qed.

(** X1.  [hashString] is the polynomial in 31 with the character codes as
    coefficients, first character highest, truncated once to a signed 32-bit
    integer: the truncation at every step loses nothing.  The hash of a
    concatenation is computed from the hash of its first part. *)
Theorem hashString_polynomial :
  ∀ (s t : jsstring),
    hashString s = ToInt32 (polynomial s 0)
    ∧ hashString [] = 0
    ∧ hashString (s ++ t) = ToInt32 (polynomial t (hashString s)).
Proof.
  intros s t. split; [|split; [reflexivity|]].
  - unfold hashString. rewrite fold_hash_step.
    apply (fold_polynomial s 0 0 0); lia.
  - unfold hashString. rewrite fold_left_app, (fold_hash_step t).
    rewrite (fold_hash_step s).
    apply (fold_polynomial t _ _ 0); [lia|].
    apply fold_hash_range. lia.
Qed.

Lemma field_ranges k : 0 ≤ k < 256 → Frame.field_ranges_ok k = true.
Proof.
  intros Hk.
  apply (below_forallb Frame.field_ranges_ok 256); [by vm_compute | lia].
Qed.

Lemma distortion_range k : 0 ≤ k < 64 → Frame.distortion_ok k = true.
Proof.
  intros Hk.
  apply (below_forallb Frame.distortion_ok 64); [by vm_compute | lia].
Qed.

(** X2.  Whatever the style label and the entity type, the seed of the
    variant lies between 0 and 2^31, the speed multiplier between 0.6 and
    2.8000000000000003, the density multiplier between 0.7 and 3.2, the
    intensity between 0.5 and 2, the oscillation phase between 0 and 2π, and
    the distortion between 0 and 1. *)
Theorem getStyleVariant_ranges :
  ∀ (animationStyle entityType : jsstring),
    let v := getStyleVariant animationStyle entityType in
    0 ≤ seed v ≤ 2 ^ 31
    ∧ (0.6 <=? speedMultiplier v)%float = true
    ∧ (speedMultiplier v <=? 2.8000000000000003)%float = true
    ∧ (0.7 <=? densityMultiplier v)%float = true
    ∧ (densityMultiplier v <=? 3.2)%float = true
    ∧ (0.5 <=? intensity v)%float = true
    ∧ (intensity v <=? 2)%float = true
    ∧ (0 <=? oscillationPhase v)%float = true
    ∧ (oscillationPhase v <=? 2 * PI)%float = true
    ∧ (0 <=? distortion v)%float = true
    ∧ (distortion v <=? 1)%float = true.
Proof.
  intros a t. cbv zeta.
  destruct (variant_fields a t)
    as (k2 & k10 & k18 & k24 & k5 & (H2 & H10 & H18 & H24 & H5)
        & E2 & E10 & E18 & E24 & E5).
  cbv zeta in *. rewrite E2, E10, E18, E24, E5.
  pose proof (field_ranges k2 H2) as F2.
  pose proof (field_ranges k10 H10) as F10.
  pose proof (field_ranges k18 H18) as F18.
  pose proof (field_ranges k24 H24) as F24.
  pose proof (distortion_range k5 H5) as F5.
  unfold Frame.field_ranges_ok, Frame.distortion_ok in *.
  repeat (match goal with H : _ && _ = true |- _ =>
            apply andb_prop in H as [H ?] end).
  split.
  { unfold getStyleVariant. cbn [seed].
    pose proof (hashString_range
                  (or_else (or_else a t) (lit "cosmic"))). lia. }
  repeat split; assumption.
Qed.

(** X3.  With a non-empty style label the entity type only chooses the base
    style: the seed and the five numeric fields are those of the label.
    With an empty label they are those of the entity type, and the label
    ["cosmic"] stands in when both are empty. *)
Theorem getStyleVariant_numbers_from_label :
  ∀ (animationStyle entityType entityType' : jsstring),
    let numbers (v : StyleVariant) :=
      (seed v, speedMultiplier v, densityMultiplier v, intensity v,
       oscillationPhase v, distortion v) in
    (animationStyle ≠ [] →
     numbers (getStyleVariant animationStyle entityType)
     = numbers (getStyleVariant animationStyle entityType'))
    ∧ (entityType ≠ [] →
       numbers (getStyleVariant [] entityType)
       = numbers (getStyleVariant entityType entityType'))
    ∧ numbers (getStyleVariant [] [])
      = numbers (getStyleVariant (lit "cosmic") entityType').
Proof.
  intros a t t'. cbv zeta. unfold getStyleVariant, or_else.
  cbn [seed speedMultiplier densityMultiplier intensity oscillationPhase
       distortion].
  split; [|split].
  - intros Ha. destruct a; [done|]. reflexivity.
  - intros Ht. destruct t; [done|]. reflexivity.
  - reflexivity.
Qed.

Lemma getStyleVariant_numbers_from_label_witness :
  speedMultiplier (getStyleVariant (lit "swirl") (lit "blackhole"))
  = speedMultiplier (getStyleVariant (lit "swirl") (lit "galaxy"))
  ∧ seed (getStyleVariant [] (lit "swirl"))
    = seed (getStyleVariant (lit "swirl") (lit "galaxy")).
Proof.
  destruct (getStyleVariant_numbers_from_label
              (lit "swirl") (lit "blackhole") (lit "galaxy")) as (H1 & _).
  destruct (getStyleVariant_numbers_from_label
              [] (lit "swirl") (lit "galaxy")) as (_ & H2 & _).
  specialize (H1 ltac:(discriminate)). specialize (H2 ltac:(discriminate)).
  cbv zeta in H1, H2.
  split; [congruence|]. congruence.
Defined.

End HashPolynomial.

(** ** Hexadecimal colours *)

Section HexColours.
Import JS Dither Hex.

Lemma hexDigit_hexChar upper d :
  0 ≤ d < 16 → hexDigit (hexChar upper d) = Some d.
Proof.
  intros Hd. unfold hexChar, hexDigit.
  destruct (Z.ltb_spec d 10), upper;
    repeat match goal with
      | |- context [?a <=? ?b] => destruct (Z.leb_spec a b); try lia
      end; cbn [andb]; f_equal; lia.
Qed.

Lemma parsePair_hexChar upper v :
  0 ≤ v ≤ 255 →
  parsePair (hexChar upper (v / 16)) (hexChar upper (v mod 16)) = Some v.
Proof.
  intros Hv. unfold parsePair.
  pose proof (Z.mod_pos_bound v 16 ltac:(lia)).
  assert (0 ≤ v / 16 < 16).
  { split; [apply Z.div_pos; lia | apply Z.div_lt_upper_bound; lia]. }
  rewrite !hexDigit_hexChar by lia. cbn. f_equal.
  rewrite (Z.div_mod v 16) at 3 by lia. lia.
Qed.

Lemma hexChar_not_hash upper d : 0 ≤ d → hexChar upper d ≠ 35.
Proof.
  intros Hd. unfold hexChar. destruct (Z.ltb_spec d 10), upper; lia.
Qed.

(** A leading [#] is optional. *)
Lemma hexToRgb_optional_hash c rest :
  c ≠ 35 → hexToRgb (c :: rest) = hexToRgb (35 :: c :: rest).
Proof.
  intros Hc. unfold hexToRgb. destruct c as [|p|p]; try reflexivity.
  do 6 (destruct p as [p|p|]; try reflexivity). done.
Qed.

(** X4.  [hexToRgb] reads back the six-digit rendering of any three bytes,
    in lower or in upper case, with or without the leading [#]. *)
Theorem hexToRgb_reads_hex :
  ∀ (upper : bool) (r g b : Z),
    0 ≤ r ≤ 255 → 0 ≤ g ≤ 255 → 0 ≤ b ≤ 255 →
    hexToRgb (35 :: hexString upper r g b) = {| r := r; g := g; b := b |}
    ∧ hexToRgb (hexString upper r g b) = {| r := r; g := g; b := b |}.
Proof.
  intros upper r g b Hr Hg Hb.
  assert (hexToRgb (35 :: hexString upper r g b)
          = {| r := r; g := g; b := b |}) as Hhash.
  { unfold hexToRgb, hexString.
    rewrite !parsePair_hexChar by lia. reflexivity. }
  split; [exact Hhash|].
  rewrite <- Hhash. unfold hexString.
  apply hexToRgb_optional_hash, hexChar_not_hash. apply Z.div_pos; lia.
Qed.

Lemma hexToRgb_reads_hex_witness :
  hexToRgb (lit "#FF8800") = {| r := 255; g := 136; b := 0 |}
  ∧ hexToRgb (lit "ff8800") = {| r := 255; g := 136; b := 0 |}.
Proof.
  split.
  - exact (proj1 (hexToRgb_reads_hex true 255 136 0
                    ltac:(lia) ltac:(lia) ltac:(lia))).
  - exact (proj2 (hexToRgb_reads_hex false 255 136 0
                    ltac:(lia) ltac:(lia) ltac:(lia))).
Defined.

Lemma parsePair_none_l hi lo : hexDigit hi = None → parsePair hi lo = None.
Proof. unfold parsePair. by intros ->. Qed.

Lemma parsePair_none_r hi lo : hexDigit lo = None → parsePair hi lo = None.
Proof. unfold parsePair. intros ->. by destruct (hexDigit hi). Qed.

(** X5.  [hexToRgb] never fails and never leaves the byte range: its three
    channels lie in [0, 255] for every string.  A string that, once its
    leading [#] is dropped, does not have exactly six characters, or has a
    character that is not a hexadecimal digit, gives black. *)
Theorem hexToRgb_malformed :
  ∀ (hex digits : jsstring),
    digits = match hex with 35 :: rest => rest | _ => hex end →
    (0 ≤ r (hexToRgb hex) ≤ 255 ∧ 0 ≤ g (hexToRgb hex) ≤ 255
     ∧ 0 ≤ b (hexToRgb hex) ≤ 255)
    ∧ (length digits ≠ 6%nat → hexToRgb hex = {| r := 0; g := 0; b := 0 |})
    ∧ (Exists (λ c, hexDigit c = None) digits →
       hexToRgb hex = {| r := 0; g := 0; b := 0 |}).
Proof.
  intros hex digits Hdigits.
  split; [exact (hexToRgb_bytes hex)|].
  unfold hexToRgb. rewrite <- Hdigits. clear Hdigits. split.
  - intros Hlen.
    destruct digits as [|r1 [|r2 [|g1 [|g2 [|b1 [|b2 [|? ?]]]]]]];
      try reflexivity. done.
  - intros Hbad.
    destruct digits as [|r1 [|r2 [|g1 [|g2 [|b1 [|b2 [|? ?]]]]]]];
      try reflexivity.
    repeat (apply Exists_cons in Hbad as [Hbad|Hbad]);
      [..|by apply Exists_nil in Hbad].
    + by rewrite (parsePair_none_l _ _ Hbad).
    + by rewrite (parsePair_none_r _ _ Hbad).
    + rewrite (parsePair_none_l g1 g2 Hbad). by destruct (parsePair r1 r2).
    + rewrite (parsePair_none_r g1 g2 Hbad). by destruct (parsePair r1 r2).
    + rewrite (parsePair_none_l b1 b2 Hbad).
      by destruct (parsePair r1 r2), (parsePair g1 g2).
    + rewrite (parsePair_none_r b1 b2 Hbad).
      by destruct (parsePair r1 r2), (parsePair g1 g2).
Qed.

Lemma hexToRgb_malformed_witness :
  hexToRgb (lit "#12345") = {| r := 0; g := 0; b := 0 |}
  ∧ hexToRgb (lit "#12345g") = {| r := 0; g := 0; b := 0 |}.
Proof.
  destruct (hexToRgb_malformed (lit "#12345") (lit "12345") eq_refl)
    as (_ & Hshort & _).
  destruct (hexToRgb_malformed (lit "#12345g") (lit "12345g") eq_refl)
    as (_ & _ & Hbad).
  split; [apply Hshort; discriminate|].
  apply Hbad. do 5 apply Exists_cons_tl. by apply Exists_cons_hd.
Defined.

End HexColours.

(** ** The clock of the overlay *)

Section Clock.
Import JS Overlay.

Lemma two_digits n :
  (n < 100)%nat →
  padStart 2 48 (toString n)
  = [48 + Z.of_nat (n / 10); 48 + Z.of_nat (n mod 10)].
Proof.
  intros Hn.
  assert (two_digits_ok n = true) as H.
  { assert (forallb two_digits_ok (seq 0 100) = true) as Hall
      by (by vm_compute).
    rewrite forallb_forall in Hall. apply Hall. apply in_seq. lia. }
  exact (bool_decide_eq_true_1 _ H).
Qed.

(** X6.  For hours, minutes and seconds below 100, as a clock gives them,
    the time string of the overlay is [HH:MM:SS IST]: twelve characters, each
    field two decimal digits with a leading zero where needed.  Different
    times give different strings. *)
Theorem timeString_format :
  ∀ (h m s h' m' s' : nat),
    (h < 100)%nat → (m < 100)%nat → (s < 100)%nat →
    (h' < 100)%nat → (m' < 100)%nat → (s' < 100)%nat →
    timeString h m s
    = [ 48 + Z.of_nat (h / 10); 48 + Z.of_nat (h mod 10); 58;
        48 + Z.of_nat (m / 10); 48 + Z.of_nat (m mod 10); 58;
        48 + Z.of_nat (s / 10); 48 + Z.of_nat (s mod 10) ] ++ lit " IST"
    ∧ length (timeString h m s) = 12%nat
    ∧ (timeString h m s = timeString h' m' s' → h = h' ∧ m = m' ∧ s = s').
Proof.
  intros h m s h' m' s' Hh Hm Hs Hh' Hm' Hs'.
  assert (∀ a b c, (a < 100)%nat → (b < 100)%nat → (c < 100)%nat →
            timeString a b c
            = [ 48 + Z.of_nat (a / 10); 48 + Z.of_nat (a mod 10); 58;
                48 + Z.of_nat (b / 10); 48 + Z.of_nat (b mod 10); 58;
                48 + Z.of_nat (c / 10); 48 + Z.of_nat (c mod 10) ]
              ++ lit " IST") as Hform.
  { intros a b c Ha Hb Hc. unfold timeString.
    rewrite !two_digits by lia. reflexivity. }
  split; [by apply Hform|]. split; [by rewrite Hform|].
  rewrite !Hform by lia. clear Hform.
  pose proof (Nat.div_mod_eq h 10). pose proof (Nat.div_mod_eq h' 10).
  pose proof (Nat.div_mod_eq m 10). pose proof (Nat.div_mod_eq m' 10).
  pose proof (Nat.div_mod_eq s 10). pose proof (Nat.div_mod_eq s' 10).
  set (hq := (h / 10)%nat) in *. set (hr := (h mod 10)%nat) in *.
  set (hq' := (h' / 10)%nat) in *. set (hr' := (h' mod 10)%nat) in *.
  set (mq := (m / 10)%nat) in *. set (mr := (m mod 10)%nat) in *.
  set (mq' := (m' / 10)%nat) in *. set (mr' := (m' mod 10)%nat) in *.
  set (sq := (s / 10)%nat) in *. set (sr := (s mod 10)%nat) in *.
  set (sq' := (s' / 10)%nat) in *. set (sr' := (s' mod 10)%nat) in *.
  clearbody hq hr hq' hr' mq mr mq' mr' sq sr sq' sr'.
  intros Heq. injection Heq as E1 E2 E3 E4 E5 E6. lia.
Qed.

Lemma timeString_format_witness :
  timeString 3 7 59 = lit "03:07:59 IST".
Proof.
  exact (proj1 (timeString_format 3 7 59 0 0 0
                  ltac:(lia) ltac:(lia) ltac:(lia)
                  ltac:(lia) ltac:(lia) ltac:(lia))).
Defined.

End Clock.

(** ** The particle pool from frame to frame *)

Section PoolFrames.
Import JS Style Catalog Particles Frame.

Variable random : nat → Q.
Variable sin : Q → Q.
Hypothesis random_unit : ∀ i, (0 <= random i)%Q ∧ (random i < 1)%Q.

Lemma index_abs {A} (l : list A) (z : Z) :
  l ≠ [] →
  ∃ c, index l (rem (Z.abs z) (Z.of_nat (length l))) = Some c ∧ c ∈ l.
Proof.
  intros Hl.
  destruct (index_rem l (Z.abs z) ltac:(lia) Hl) as (c & Hc & Hin & _).
  by exists c.
Qed.

Lemma draw_inside i w :
  (0 < w)%Q → (0 <= random i * w)%Q ∧ (random i * w < w)%Q.
Proof.
  intros Hw. destruct (random_unit i) as [H0 H1]. split.
  - apply Qmult_le_0_compat; [done | by apply Qlt_le_weak].
  - rewrite <- (Qmult_1_l w) at 2. by apply Qmult_lt_compat_r.
Qed.

Lemma draw_velocity i :
  (- (1 # 4) <= (random i - 0.5) * 0.5)%Q ∧ ((random i - 0.5) * 0.5 < 1 # 4)%Q.
Proof. destruct (random_unit i) as [H0 H1]. split; lra. Qed.

Lemma draw_life i : (0 <= random i * 100)%Q ∧ (random i * 100 < 100)%Q.
Proof. destruct (random_unit i) as [H0 H1]. split; lra. Qed.

Lemma createParticle_fresh width height variant colors n :
  (0 < width)%Q → (0 < height)%Q →
  fresh width height variant colors
    (createParticle random width height variant colors n).1
  ∧ (createParticle random width height variant colors n).2
    = (n + match variant with Some _ => 6 | None => 7 end)%nat.
Proof.
  intros Hw Hh. unfold createParticle, fresh.
  destruct variant as [v|];
    unfold mbind, Draw_bind, mret, Draw_ret, Math_random;
    cbn [fst snd x y vx vy life maxLife char color].
  - split; [|lia].
    split; [apply draw_inside, Hw|]. split; [apply draw_inside, Hh|].
    split; [apply draw_velocity|]. split; [apply draw_velocity|].
    split; [apply draw_life|]. split; [reflexivity|].
    split; [apply (index_abs (charSet_of (Some v))); discriminate|].
    apply (index_abs (palette_of colors)). by destruct colors.
  - split; [|lia].
    split; [apply draw_inside, Hw|]. split; [apply draw_inside, Hh|].
    split; [apply draw_velocity|]. split; [apply draw_velocity|].
    split; [apply draw_life|]. split; [reflexivity|].
    split; [apply (index_abs (charSet_of None)); discriminate|].
    apply (index_abs (palette_of colors)). by destruct colors.
Qed.

Lemma fresh_alive width height variant colors p :
  fresh width height variant colors p → alive_before p.
Proof.
  intros (_ & _ & _ & _ & [H0 H1] & Hmax & _). unfold alive_before.
  rewrite Hmax. split; [by apply Qlt_le_weak | done].
Qed.

(** X7.  With draws in [0, 1) and a canvas of positive size, a particle made
    by [createParticle] lies inside the canvas, moves by less than a quarter
    of a pixel per step on each axis, has a life in [0, 100) and a maximal
    life of 100, a glyph of the glyph set (ten glyphs with a variant, four
    without) and a colour of the palette (white without one).  It costs six
    draws with a variant and seven without. *)
Theorem createParticle_inside :
  ∀ (width height : Q) (variant : option StyleVariant)
    (colors : option Palette) (n : nat),
    (0 < width)%Q → (0 < height)%Q →
    let p := (createParticle random width height variant colors n).1 in
    ((0 <= x p)%Q ∧ (x p < width)%Q)
    ∧ ((0 <= y p)%Q ∧ (y p < height)%Q)
    ∧ ((- (1 # 4) <= vx p)%Q ∧ (vx p < 1 # 4)%Q)
    ∧ ((- (1 # 4) <= vy p)%Q ∧ (vy p < 1 # 4)%Q)
    ∧ ((0 <= life p)%Q ∧ (life p < 100)%Q)
    ∧ maxLife p = 100%Q
    ∧ (∃ c, char p = Some c
            ∧ c ∈ match variant with
                  | Some _ =>
                      ["·"; "∙"; "•"; "○"; "✶"; "✷"; "✸"; "✹"; "✺"; "✻"]%string
                  | None => ["·"; "∙"; "•"; "○"]%string
                  end)
    ∧ (∃ c, color p = Some c
            ∧ c ∈ match colors with
                  | Some c => [primary c; secondary c; accent c]
                  | None => [lit "#FFFFFF"]
                  end)
    ∧ (createParticle random width height variant colors n).2
      = (n + match variant with Some _ => 6 | None => 7 end)%nat.
Proof.
  intros w h variant colors n Hw Hh p.
  destruct (createParticle_fresh w h variant colors n Hw Hh)
    as ((Hx & Hy & Hvx & Hvy & Hl & Hm & Hc & Hcol) & Hn).
  subst p. do 6 (split; [assumption|]).
  split; [exact Hc|]. split; [exact Hcol | exact Hn].
Qed.

Lemma pushInitial_spec count : ∀ width height particles n,
  (0 < width)%Q → (0 < height)%Q →
  ∃ added,
    (pushInitial random count width height particles n).1
    = particles ++ added
    ∧ length added = count
    ∧ Forall (fresh width height None None) added
    ∧ (pushInitial random count width height particles n).2
      = (n + 7 * count)%nat.
Proof.
  induction count as [|count IH]; intros w h ps n Hw Hh; cbn [pushInitial].
  { exists []. cbn. rewrite app_nil_r. repeat split; [constructor | lia]. }
  unfold mbind, Draw_bind.
  destruct (createParticle_fresh w h None None n Hw Hh) as [Hp Hn].
  destruct (createParticle random w h None None n) as [p n'].
  cbn [fst snd] in Hp, Hn. subst n'.
  destruct (IH w h (ps ++ [p]) (n + 7)%nat Hw Hh)
    as (added & -> & Hlen & Hall & ->).
  exists (p :: added). rewrite <- app_assoc. cbn.
  repeat split; [by rewrite Hlen | by constructor | lia].
Qed.

(** X8.  At mount an empty pool receives 200 particles, each inside the
    canvas with [0 ≤ life < maxLife = 100], at the cost of 1400 draws; a pool
    that already holds particles is kept as it is, without a draw. *)
Theorem mountPool_fills_empty_pool :
  ∀ (width height : Q) (particles : list Particle) (n : nat),
    (0 < width)%Q → (0 < height)%Q →
    let mounted := mountPool random width height particles n in
    (particles = [] →
     length mounted.1 = 200%nat
     ∧ Forall (λ p, ((0 <= x p)%Q ∧ (x p < width)%Q)
                    ∧ ((0 <= y p)%Q ∧ (y p < height)%Q)
                    ∧ ((0 <= life p)%Q ∧ (life p < maxLife p)%Q)
                    ∧ maxLife p = 100%Q) mounted.1
     ∧ mounted.2 = (n + 1400)%nat)
    ∧ (particles ≠ [] → mounted = (particles, n)).
Proof.
  intros w h ps n Hw Hh mounted. subst mounted. unfold mountPool. split.
  - intros ->. cbn [length Nat.eqb].
    destruct (pushInitial_spec 200 w h [] n Hw Hh)
      as (added & -> & Hlen & Hall & ->).
    cbn [app]. split; [exact Hlen|]. split; [|lia].
    eapply Forall_impl; [exact Hall|].
    intros p (Hx & Hy & _ & _ & Hl & Hm & _).
    rewrite Hm. done.
  - intros Hne. destruct ps; [done|]. reflexivity.
Qed.


Lemma createParticle_draws width height variant colors n :
  (createParticle random width height variant colors n).2
  = (n + match variant with Some _ => 6 | None => 7 end)%nat.
Proof.
  unfold createParticle.
  destruct variant; unfold mbind, Draw_bind, mret, Draw_ret, Math_random;
    cbn [snd]; lia.
Qed.

Lemma pushWhile_spec (P : Particle → Prop) fuel :
  ∀ target width height variant colors particles n,
    (∀ k, P (createParticle random width height (Some variant)
               (Some colors) k).1) →
    target - Z.of_nat (length particles) ≤ Z.of_nat fuel →
    ∃ added,
      pushWhile random fuel target width height variant colors particles n
      = (particles ++ added, (n + 6 * length added)%nat)
      ∧ length added = Z.to_nat (target - Z.of_nat (length particles))
      ∧ Forall P added.
Proof.
  induction fuel as [|fuel IH]; intros target w h v c ps n HP Hfuel;
    cbn [pushWhile].
  { exists []. rewrite app_nil_r. unfold mret, Draw_ret.
    split; [f_equal; cbn; lia|]. split; [cbn; lia | constructor]. }
  destruct (Z.ltb_spec (Z.of_nat (length ps)) target) as [Hlt|Hge].
  - unfold mbind, Draw_bind.
    pose proof (HP n) as Hp.
    pose proof (createParticle_draws w h (Some v) (Some c) n) as Hn.
    destruct (createParticle random w h (Some v) (Some c) n) as [p n'].
    cbn [fst snd] in Hp, Hn. subst n'.
    destruct (IH target w h v c (ps ++ [p]) (n + 6)%nat HP)
      as (added & -> & Hlen & Hall).
    { rewrite length_app. cbn. lia. }
    exists (p :: added). rewrite <- app_assoc. cbn [app length].
    rewrite length_app in Hlen. cbn [length] in Hlen.
    split; [f_equal; lia|]. split; [lia | by constructor].
  - exists []. rewrite app_nil_r. unfold mret, Draw_ret.
    split; [f_equal; cbn; lia|]. split; [cbn; lia | constructor].
Qed.

Lemma adjustPool_spec (P : Particle → Prop) width height variant colors
    particles n :
  (∀ k, P (createParticle random width height (Some variant)
             (Some colors) k).1) →
  let target := targetParticleCount variant in
  let adjusted := adjustPool random width height variant colors particles n in
  Z.of_nat (length adjusted.1) = target
  ∧ adjusted.2
    = (n + 6 * Z.to_nat (target - Z.of_nat (length particles)))%nat
  ∧ (Forall P particles → Forall P adjusted.1).
Proof.
  intros HP target adjusted. subst adjusted. unfold adjustPool. fold target.
  assert (40 ≤ target) as Ht by (subst target; unfold targetParticleCount; lia).
  destruct (pushWhile_spec P (Z.to_nat target) target width height variant
              colors particles n HP ltac:(lia)) as (added & E & Hlen & Hall).
  unfold mbind, Draw_bind, mret, Draw_ret. rewrite E. cbn [fst snd].
  rewrite popWhile_shrinks by lia.
  split; [rewrite length_take, length_app; lia|].
  split; [lia|].
  intros Hps. apply Forall_take. by apply Forall_app.
Qed.

Lemma adjustPool_at_target width height variant colors particles n :
  Z.of_nat (length particles) = targetParticleCount variant →
  adjustPool random width height variant colors particles n = (particles, n).
Proof.
  intros Hlen. unfold adjustPool.
  destruct (pushWhile_spec (λ _, True) (Z.to_nat (targetParticleCount variant))
              (targetParticleCount variant) width height variant colors
              particles n ltac:(done) ltac:(lia)) as (added & E & Hadd & _).
  unfold mbind, Draw_bind, mret, Draw_ret. rewrite E.
  assert (added = []) as -> by (destruct added; [done | cbn in Hadd; lia]).
  rewrite app_nil_r. rewrite popWhile_shrinks; [|unfold targetParticleCount; lia|lia].
  rewrite take_ge by lia. f_equal. cbn. lia.
Qed.

(** X9.  The pool adjustment costs six draws for each particle it adds and
    none when it removes particles.  Run again on its own result, for the
    same variant, it changes nothing and draws nothing. *)
Theorem adjustPool_idempotent :
  ∀ (animationStyle entityType : jsstring) (width height : Q)
    (colors : Palette) (particles : list Particle) (n : nat),
    let variant := getStyleVariant animationStyle entityType in
    let target := Z.max 40 (floor (90 * densityMultiplier variant)%float) in
    let adjusted := adjustPool random width height variant colors particles n in
    adjusted.2 = (n + 6 * Z.to_nat (target - Z.of_nat (length particles)))%nat
    ∧ (target ≤ Z.of_nat (length particles) → adjusted.2 = n)
    ∧ adjustPool random width height variant colors adjusted.1 adjusted.2
      = adjusted.
Proof.
  intros a t w h c ps n variant target adjusted.
  destruct (adjustPool_spec (λ _, True) w h variant c ps n ltac:(done))
    as (Hlen & Hn & _).
  fold adjusted in Hlen, Hn. change (targetParticleCount variant) with target in *.
  split; [exact Hn|]. split; [intros Hle; rewrite Hn; lia|].
  rewrite (adjustPool_at_target w h variant c _ _ Hlen). by destruct adjusted.
Qed.

Lemma alive_inside_before width height p :
  alive_inside width height p → alive_before p.
Proof.
  intros (H0 & H1 & _). split; [done|]. by eapply Qlt_le_trans.
Qed.

Lemma renderCall_alive particles c :
  (0 < call_width c)%Q → (0 < call_height c)%Q →
  Forall alive_before particles →
  Z.of_nat (length (renderCall random sin particles c))
  = targetParticleCount
      (getStyleVariant (animationStyle (call_entity c)) (type (call_entity c)))
  ∧ Forall (alive_inside (call_width c) (call_height c))
      (renderCall random sin particles c).
Proof.
  intros Hw Hh Hps. unfold renderCall, Frame.renderEntity.
  set (variant := getStyleVariant _ _).
  set (colors := colorPalette (call_entity c)).
  destruct (adjustPool_spec alive_before (call_width c) (call_height c)
              variant colors particles (call_draws c)) as (Hlen & _ & Hall).
  { intros k. eapply fresh_alive.
    apply (createParticle_fresh _ _ (Some variant) (Some colors) k Hw Hh). }
  unfold mbind, Draw_bind.
  destruct (adjustPool random (call_width c) (call_height c) variant colors
              particles (call_draws c)) as [adjusted n'].
  cbn [fst snd] in *. specialize (Hall Hps).
  pose proof (forEach_pointwise
                (updateParticle random sin (call_width c) (call_height c)
                   colors variant)
                alive_before
                (λ _ p', alive_inside (call_width c) (call_height c) p')
                (λ p k Hp,
                   proj1 (updateParticle_alive random sin random_unit
                            (call_width c) (call_height c) Hw Hh colors
                            variant p k
                            (decay_nonneg _ _) Hp))
                adjusted n' Hall) as H.
  unfold updateParticles.
  revert H. generalize (forEach (updateParticle random sin (call_width c)
                                   (call_height c) colors variant)
                          adjusted n').1.
  intros updated H. split.
  - rewrite <- Hlen. f_equal. symmetry. by eapply Forall2_length.
  - clear Hlen Hall. induction H; constructor; assumption.
Qed.

(** X10.  Over any sequence of [renderEntity] calls, whatever the entities
    and the positive canvas sizes (two calls sharing the pool during a
    cross-fade, sizes changing on resize), a pool whose particles start with
    [life ≤ maxLife] and [maxLife > 0], as the mount pool does, keeps that
    property; after the last call it has the size that call's variant asks
    for, and every particle is alive and inside that call's canvas. *)
Theorem renderEntity_keeps_pool :
  ∀ (calls : list Call) (particles : list Particle),
    Forall (λ c, (0 < call_width c)%Q ∧ (0 < call_height c)%Q) calls →
    Forall (λ p, (life p <= maxLife p)%Q ∧ (0 < maxLife p)%Q) particles →
    let pool := renderCalls random sin calls particles in
    Forall (λ p, (life p <= maxLife p)%Q ∧ (0 < maxLife p)%Q) pool
    ∧ ∀ c, last calls = Some c →
        Z.of_nat (length pool)
        = Z.max 40
            (floor (90 * densityMultiplier
                            (getStyleVariant (animationStyle (call_entity c))
                               (type (call_entity c))))%float)
        ∧ Forall (λ p, (0 < life p)%Q ∧ (life p <= maxLife p)%Q
                       ∧ (0 <= x p)%Q ∧ (x p <= call_width c)%Q
                       ∧ (0 <= y p)%Q ∧ (y p <= call_height c)%Q) pool.
Proof.
  intros calls. induction calls as [|c calls IH] using rev_ind;
    intros particles Hcalls Hps pool; subst pool.
  { split; [exact Hps|]. intros c Hc. discriminate Hc. }
  apply Forall_app in Hcalls as [Hcalls Hc].
  apply Forall_cons in Hc as [[Hw Hh] _].
  destruct (IH particles Hcalls Hps) as [Hprev _].
  unfold renderCalls in *. rewrite fold_left_app. cbn [fold_left].
  destruct (renderCall_alive _ c Hw Hh Hprev) as [Hlen Hall].
  split.
  - eapply Forall_impl; [exact Hall|]. apply alive_inside_before.
  - intros c' Hlast. rewrite last_snoc in Hlast. injection Hlast as <-.
    split; [exact Hlen | exact Hall].
Qed.

End PoolFrames.

Section PoolFramesExamples.
Import JS Style Catalog Particles Frame.

Lemma mountPool_fills_empty_pool_witness :
  length (mountPool (λ _, 1 # 2)%Q 800 600 [] 0%nat).1 = 200%nat.
Proof.
  refine (proj1 (proj1 (mountPool_fills_empty_pool (λ _, 1 # 2)%Q _
                          800 600 [] 0%nat _ _) eq_refl)).
  - intros i. split; by vm_compute.
  - by vm_compute.
  - by vm_compute.
Defined.


Lemma createParticle_inside_witness :
  maxLife (createParticle (λ _, 1 # 2)%Q 800 600 None None 0%nat).1 = 100%Q
  ∧ (createParticle (λ _, 1 # 2)%Q 800 600 None None 0%nat).2 = 7%nat.
Proof.
  pose proof (createParticle_inside (λ _, 1 # 2)%Q
                ltac:(intros i; split; by vm_compute)
                800 600 None None 0%nat
                ltac:(by vm_compute) ltac:(by vm_compute))
    as (_ & _ & _ & _ & _ & Hmax & _ & _ & Hdraws).
  split; [exact Hmax | exact Hdraws].
Defined.

(** Two calls on one pool, as in a cross-fade. *)
Lemma renderEntity_keeps_pool_witness :
  Forall (λ p, (life p <= maxLife p)%Q ∧ (0 < maxLife p)%Q)
    (renderCalls (λ _, 1 # 2)%Q (λ _, 0%Q)
       [ {| call_width := 800; call_height := 600;
            call_entity := Playback.scenario_entity 2000; call_draws := 0 |};
         {| call_width := 800; call_height := 600;
            call_entity := Playback.scenario_entity 3000; call_draws := 40 |} ]
       sample_particles).
Proof.
  refine (proj1 (renderEntity_keeps_pool (λ _, 1 # 2)%Q (λ _, 0%Q) _ _
                   sample_particles _ _)).
  - intros i. split; by vm_compute.
  - repeat (apply Forall_cons; split; [split; by vm_compute|]).
    apply Forall_nil_2.
  - repeat (apply Forall_cons; split; [split; by vm_compute|]).
    apply Forall_nil_2.
Defined.

End PoolFramesExamples.

(** ** The glyph pattern of an entity type *)

Section Patterns.
Import JS Style Frame.

Lemma declared_base_style animationStyle entityType l :
  TYPE_STYLE_BIAS !! entityType = Some l →
  ∃ s, baseStyle (getStyleVariant animationStyle entityType) = Some s ∧ s ∈ l.
Proof.
  intros Hl.
  assert (l ≠ []) as Hne.
  { destruct (bias_lists entityType l Hl) as [?|[_ E]];
      [by destruct l | by rewrite E]. }
  destruct (index_rem l _ (seed_nonneg animationStyle entityType) Hne)
    as (s & Hs & Hin & _).
  exists s. split; [|exact Hin].
  unfold getStyleVariant, bias_lookup in *. cbn [baseStyle seed] in *.
  rewrite Hl. exact Hs.
Qed.

Lemma pattern_types_declared :
  Forall (λ tag, is_Some (pattern_of (lit tag))
                 ∧ is_Some (TYPE_STYLE_BIAS !! lit tag)) PATTERN_TYPES.
Proof.
  unfold PATTERN_TYPES.
  repeat (apply Forall_cons; split;
          [split; (eexists; vm_compute; reflexivity)|]).
  apply Forall_nil_2.
Qed.

#[local] Ltac pattern_case :=
  match goal with
  | |- context [isType ?t ?tag] =>
      unfold isType at 1;
      destruct (bool_decide_reflect (t = lit tag)) as [->|?]
  end.

Lemma pattern_of_some type :
  is_Some (pattern_of type) → type ∈ lit <$> PATTERN_TYPES.
Proof.
  unfold pattern_of.
  repeat (pattern_case;
          [intros _; apply (bool_decide_unpack _); by vm_compute|]).
  cbn. by intros [? ?].
Qed.

(** X11.  [renderEntity] draws a glyph pattern for exactly thirteen type
    tags, and nothing beyond the shared star field and particles for any
    other type.  Each of the thirteen is a key of the style bias table, so an
    entity with a pattern always has a base style, taken from the list
    declared for its type.  The star pattern is drawn as a sun for the tag
    ["sun"] only. *)
Theorem pattern_of_types :
  ∀ (type : jsstring),
    (is_Some (pattern_of type) ↔ type ∈ lit <$> PATTERN_TYPES)
    ∧ (is_Some (pattern_of type) →
       ∃ l, TYPE_STYLE_BIAS !! type = Some l
            ∧ ∀ animationStyle,
                ∃ s, baseStyle (getStyleVariant animationStyle type) = Some s
                     ∧ s ∈ l)
    ∧ (pattern_of type = Some (Star true) ↔ type = lit "sun")
    ∧ (pattern_of type = Some (Star false) ↔ type = lit "star").
Proof.
  intros type.
  assert (type ∈ lit <$> PATTERN_TYPES →
          is_Some (pattern_of type) ∧ is_Some (TYPE_STYLE_BIAS !! type))
    as Hin.
  { intros H. apply list_elem_of_fmap in H as (tag & -> & Htag).
    pose proof pattern_types_declared as HF.
    rewrite Forall_forall in HF. by apply HF. }
  split; [split; [apply pattern_of_some | apply Hin]|].
  split.
  { intros Hsome. apply pattern_of_some in Hsome.
    destruct (Hin Hsome) as [_ [l Hl]].
    exists l. split; [exact Hl|]. intros a. by apply declared_base_style. }
  split.
  - split; [|by intros ->].
    unfold pattern_of.
    repeat (pattern_case; [try discriminate; by vm_compute|]).
    discriminate.
  - split; [|by intros ->].
    unfold pattern_of.
    repeat (pattern_case; [try discriminate; by vm_compute|]).
    discriminate.
Qed.

Lemma pattern_of_types_witness :
  (∃ s, baseStyle (getStyleVariant (lit "swirl") (lit "pulsar")) = Some s
        ∧ s ∈ [pulse; flare])
  ∧ pattern_of (lit "asteroid") = None.
Proof.
  destruct (pattern_of_types (lit "pulsar")) as (_ & Hstyle & _).
  destruct (Hstyle ltac:(eexists; by vm_compute)) as (l & Hl & Hs).
  destruct (pattern_of_types (lit "asteroid")) as ([Hsome _] & _).
  split.
  - assert (l = [pulse; flare]) as -> by (vm_compute in Hl; congruence).
    apply Hs.
  - destruct (pattern_of (lit "asteroid")) eqn:E; [|reflexivity].
    exfalso. specialize (Hsome ltac:(by eexists)).
    by apply (bool_decide_pack _) in Hsome.
Defined.

End Patterns.

(** ** The star field *)

Section StarField.
Import JS Style Catalog Dither Frame.

Lemma Qrem_bounds a b :
  (0 <= a)%Q → (0 < b)%Q → (0 <= Qrem a b)%Q ∧ (Qrem a b < b)%Q.
Proof.
  intros Ha Hb. unfold Qrem, Qtrunc.
  assert (0 <= a / b)%Q as Hq.
  { apply Qle_shift_div_l; [done|]. by rewrite Qmult_0_l. }
  apply Qle_bool_iff in Hq as Hq'. rewrite Hq'.
  pose proof (Qfloor_le (a / b)) as Hlo.
  pose proof (Qlt_floor (a / b)) as Hhi.
  rewrite inject_Z_plus in Hhi.
  assert (a == a / b * b)%Q as Hab.
  { rewrite Qmult_comm, Qmult_div_r; [reflexivity|]. lra. }
  set (q := (a / b)%Q) in *. set (f := inject_Z (Qfloor q)) in *.
  change (inject_Z 1) with 1%Q in Hhi.
  split; nra.
Qed.

Lemma withAlpha_unit hex a :
  (0 <= alpha (withAlpha hex a))%Q ∧ (alpha (withAlpha hex a) <= 1)%Q.
Proof.
  unfold withAlpha. cbn [alpha]. split.
  - apply Q.min_glb; [done | apply Q.le_max_l].
  - apply Q.le_min_l.
Qed.

Lemma star_count animationStyle entityType :
  77 ≤ starCount (getStyleVariant animationStyle entityType) ≤ 352.
Proof.
  destruct (variant_fields animationStyle entityType)
    as (k2 & k10 & k18 & k24 & k5 & (_ & H10 & _) & _ & E10 & _).
  cbv zeta in E10. unfold starCount. rewrite E10.
  assert (star_count_ok k10 = true) as H.
  { apply (below_forallb star_count_ok 256); [by vm_compute | lia]. }
  unfold star_count_ok in H.
  repeat (apply andb_prop in H as [H ?]). lia.
Qed.

Lemma star_inside sin width height time colors animationStyle entityType i :
  (0 < width)%Q → (0 < height)%Q → 0 ≤ i →
  let g := star sin width height time colors
             (getStyleVariant animationStyle entityType) i in
  is_Some (glyph g)
  ∧ ((0 <= glyph_x g)%Q ∧ (glyph_x g < width)%Q)
  ∧ ((0 <= glyph_y g)%Q ∧ (glyph_y g < height)%Q)
  ∧ ((0 <= alpha (fillStyle g))%Q ∧ (alpha (fillStyle g) <= 1)%Q)
  ∧ rgb (fillStyle g) = hexToRgb (accent colors).
Proof.
  intros Hw Hh Hi g. subst g. unfold star.
  cbn [glyph glyph_x glyph_y fillStyle].
  pose proof (seed_nonneg animationStyle entityType) as Hseed.
  set (v := getStyleVariant animationStyle entityType) in *.
  assert (0 <= inject_Z i)%Q as Hi'.
  { change 0%Q with (inject_Z 0). by rewrite <- Zle_Qle. }
  split.
  { set (glyphs := if bool_decide _ then _ else _).
    destruct (index_rem glyphs i Hi) as (c & Hc & _).
    { subst glyphs. by destruct (bool_decide _). }
    rewrite Hc. by eexists. }
  split.
  { apply Qrem_bounds; [|done].
    assert (0 <= inject_Z (rem (seed v) 97))%Q.
    { change 0%Q with (inject_Z 0). rewrite <- Zle_Qle.
      unfold rem. apply Z.rem_nonneg; lia. }
    assert (0 <= inject_Z i * 137.5)%Q by (apply Qmult_le_0_compat; [done|lra]).
    lra. }
  split.
  { apply Qrem_bounds; [|done].
    assert (0 <= inject_Z (rem (seed v) 53))%Q.
    { change 0%Q with (inject_Z 0). rewrite <- Zle_Qle.
      unfold rem. apply Z.rem_nonneg; lia. }
    assert (0 <= inject_Z i * exact 73.3%float)%Q.
    { apply Qmult_le_0_compat; [done | by vm_compute]. }
    lra. }
  split; [apply withAlpha_unit | reflexivity].
Qed.

(** X12.  For the variant of any style label and entity type and a canvas
    of positive size, [drawStarField] draws [floor(110 × densityMultiplier)]
    stars, between 77 and 352 of them.  Every star has a glyph, lies inside
    the canvas, and is filled with the accent colour at an opacity in
    [0, 1].  The glyphs and the positions do not depend on the time: only the
    opacity twinkles. *)
Theorem drawStarField_inside :
  ∀ (sin : Q → Q) (width height time time' : Q) (colors : Palette)
    (animationStyle entityType : jsstring),
    (0 < width)%Q → (0 < height)%Q →
    let variant := getStyleVariant animationStyle entityType in
    let stars := (drawStarField sin width height time colors variant).2 in
    let stars' := (drawStarField sin width height time' colors variant).2 in
    Z.of_nat (length stars) = floor (110 * densityMultiplier variant)%float
    ∧ 77 ≤ Z.of_nat (length stars) ≤ 352
    ∧ Forall (λ g, is_Some (glyph g)
                   ∧ ((0 <= glyph_x g)%Q ∧ (glyph_x g < width)%Q)
                   ∧ ((0 <= glyph_y g)%Q ∧ (glyph_y g < height)%Q)
                   ∧ ((0 <= alpha (fillStyle g))%Q
                      ∧ (alpha (fillStyle g) <= 1)%Q)
                   ∧ rgb (fillStyle g) = hexToRgb (accent colors)) stars
    ∧ (λ g, (glyph g, glyph_x g, glyph_y g)) <$> stars
      = (λ g, (glyph g, glyph_x g, glyph_y g)) <$> stars'.
Proof.
  intros sin w h time time' colors a t Hw Hh variant stars stars'.
  subst stars stars'. unfold drawStarField. cbn [snd].
  pose proof (star_count a t) as Hcount. fold variant in Hcount.
  assert (Z.of_nat (length (star sin w h time colors variant
                              <$> (Z.of_nat <$> seq 0 (Z.to_nat (starCount variant)))))
          = starCount variant) as Hlen.
  { rewrite !length_fmap, length_seq. lia. }
  split; [exact Hlen|]. split; [lia|]. split.
  - apply Forall_fmap, Forall_fmap, Forall_forall. intros k _.
    apply (star_inside sin w h time colors a t (Z.of_nat k) Hw Hh). lia.
  - rewrite <- !list_fmap_compose. apply list_fmap_ext. intros _ k _.
    reflexivity.
Qed.

End StarField.

Section StarFieldExample.
Import JS Style Catalog Frame.

Lemma drawStarField_inside_witness :
  Z.of_nat (length (drawStarField (λ _, 0%Q) 800 600 1000 sample_palette
                      (getStyleVariant (lit "swirl") (lit "blackhole"))).2)
  = 93.
Proof.
  pose proof (drawStarField_inside (λ _, 0%Q) 800 600 1000 0 sample_palette
                (lit "swirl") (lit "blackhole")
                ltac:(by vm_compute) ltac:(by vm_compute)) as (Hlen & _).
  rewrite Hlen. by vm_compute.
Defined.

End StarFieldExample.

(** ** Dark pixels under dithering *)

Section DarkPixels.
Import JS Catalog Dither Frame.

Lemma threshold_nonneg x y : (threshold x y <? 0)%float = false.
Proof.
  unfold threshold.
  pose proof (Nat.mod_upper_bound y 4 ltac:(lia)) as Hy.
  pose proof (Nat.mod_upper_bound x 4 ltac:(lia)) as Hx.
  destruct (y mod 4)%nat as [|[|[|[|?]]]]; [| | | |lia];
    (destruct (x mod 4)%nat as [|[|[|[|?]]]]; [| | | |lia]); reflexivity.
Qed.

Lemma darkened_channel c :
  0 ≤ c ≤ 255 →
  0 ≤ ToUint8Clamp (num c * 0.15) ≤ c ∧ ToUint8Clamp (num c * 0.15) ≤ 38.
Proof.
  intros Hc.
  assert (darkened_ok c = true) as H.
  { apply (below_forallb darkened_ok 256); [by vm_compute | lia]. }
  unfold darkened_ok in H. repeat (apply andb_prop in H as [H ?]). lia.
Qed.

(** X13.  Whatever the palette, dithering leaves a black pixel black, and
    never brightens a pixel that is not above its threshold: each of its
    colour channels ends at most where it was, and at most at 38. *)
Theorem applyEnhancedDithering_dark_pixels :
  ∀ (data : list Z) (width height : nat) (colors : Palette) (x y : nat)
    (R G B : Z),
    length data = (width * height * 4)%nat →
    (x < width)%nat → (y < height)%nat →
    let i := ((y * width + x) * 4)%nat in
    let out := applyEnhancedDithering data width height colors in
    data !! i = Some R → data !! (i + 1)%nat = Some G →
    data !! (i + 2)%nat = Some B →
    0 ≤ R ≤ 255 → 0 ≤ G ≤ 255 → 0 ≤ B ≤ 255 →
    (R = 0 → G = 0 → B = 0 →
     out !! i = Some 0 ∧ out !! (i + 1)%nat = Some 0
     ∧ out !! (i + 2)%nat = Some 0)
    ∧ ((threshold x y
        <? num R * 0.299 + num G * 0.587 + num B * 0.114)%float = false →
       ∃ R' G' B',
         out !! i = Some R' ∧ out !! (i + 1)%nat = Some G'
         ∧ out !! (i + 2)%nat = Some B'
         ∧ 0 ≤ R' ≤ R ∧ 0 ≤ G' ≤ G ∧ 0 ≤ B' ≤ B
         ∧ R' ≤ 38 ∧ G' ≤ 38 ∧ B' ≤ 38).
Proof.
  intros data width height colors x y R G B Hlen Hx Hy i out HR HG HB
    HRb HGb HBb.
  destruct (rows_dithered (hexToRgb (secondary colors))
              (hexToRgb (accent colors)) width height data ltac:(lia)
              x y Hx Hy)
    as (R0 & G0 & B0 & A & HR0 & HG0 & HB0 & _ & OR & OG & OB & _).
  fold i in HR0, HG0, HB0, OR, OG, OB.
  rewrite HR in HR0. rewrite HG in HG0. rewrite HB in HB0.
  injection HR0 as <-. injection HG0 as <-. injection HB0 as <-.
  change (rows _ _ width height data) with out in OR, OG, OB.
  unfold pixel_out, luma in OR, OG, OB.
  assert ((threshold x y
           <? num R * 0.299 + num G * 0.587 + num B * 0.114)%float = false →
          out !! i = Some (ToUint8Clamp (num R * 0.15))
          ∧ out !! (i + 1)%nat = Some (ToUint8Clamp (num G * 0.15))
          ∧ out !! (i + 2)%nat = Some (ToUint8Clamp (num B * 0.15))) as Hdark.
  { intros Hcmp. rewrite Hcmp in OR, OG, OB. by repeat split. }
  split.
  - intros -> -> ->. apply Hdark. apply threshold_nonneg.
  - intros Hcmp. destruct (Hdark Hcmp) as (E1 & E2 & E3).
    destruct (darkened_channel R HRb), (darkened_channel G HGb),
      (darkened_channel B HBb).
    eexists _, _, _. do 3 (split; [eassumption|]). lia.
Qed.

Lemma applyEnhancedDithering_dark_pixels_witness :
  applyEnhancedDithering sample_image 2 2 sample_palette !! 0%nat = Some 0
  ∧ applyEnhancedDithering sample_image 2 2 sample_palette !! 1%nat = Some 0
  ∧ applyEnhancedDithering sample_image 2 2 sample_palette !! 2%nat = Some 0.
Proof.
  exact (proj1 (applyEnhancedDithering_dark_pixels sample_image 2 2
                  sample_palette 0 0 0 0 0 eq_refl ltac:(lia) ltac:(lia)
                  eq_refl eq_refl eq_refl ltac:(lia) ltac:(lia) ltac:(lia))
           eq_refl eq_refl eq_refl).
Defined.

End DarkPixels.

(** ** The scale of a frame *)

Section Scale.
Import JS Dither Canvas.

Lemma scale_checked width :
  289 ≤ width < 16384 → scale_ok width = true.
Proof.
  intros Hw.
  pose proof (below_forallb (λ w, (w <? 289) || scale_ok w)
                (Z.to_nat 16384) ltac:(by vm_compute) width) as H.
  rewrite Z2Nat.id in H by lia. specialize (H ltac:(lia)).
  cbv beta in H. apply orb_prop in H as [H|H]; [lia | exact H].
Qed.

(** X14.  A canvas sized from its parent element is at least 320 by 240.
    For such a canvas less than 16384 wide, the scale of [render] is greater
    than 0.6 and at most 1; it is 1 exactly when the width is in [480, 640)
    or at least 700; the scaled width is never below the canvas width, and it
    is, up to rounding, 480 below a width of 480, 700 between 640 and
    700, and the canvas width otherwise. *)
Theorem scaleFactor_parent_canvas :
  ∀ (clientWidth clientHeight innerWidth innerHeight : Z),
    clientWidth < 16384 →
    let size :=
      updateSize (Some (clientWidth, clientHeight)) innerWidth innerHeight in
    let width := size.1 in
    let s := scaleFactor width in
    320 ≤ width ∧ 240 ≤ size.2
    ∧ is_finite s = true
    ∧ (0.6 <? s)%float = true ∧ (s <=? 1)%float = true
    ∧ ((s =? 1)%float = true ↔ 480 ≤ width < 640 ∨ 700 ≤ width)
    ∧ (num width <=? scaledWidth width)%float = true
    ∧ (Qabs (exact (scaledWidth width) - inject_Z (logicalWidth width))
       <= 1 # 1000000000)%Q.
Proof.
  intros cw ch iw ih Hcw size width s. subst size. cbn [updateSize fst snd] in *.
  assert (289 ≤ width < 16384) as Hw by (subst width; lia).
  pose proof (scale_checked width Hw) as H. unfold scale_ok in H.
  fold s in H.
  apply andb_prop in H as [H H6]. apply andb_prop in H as [H H5].
  apply andb_prop in H as [H H4]. apply andb_prop in H as [H H3].
  apply andb_prop in H as [H1 H2].
  apply bool_decide_eq_true in H5. apply Qle_bool_iff in H6.
  split; [subst width; lia|]. split; [lia|].
  do 3 (split; [assumption|]). split; [|by split].
  rewrite H5. split.
  - intros E. apply orb_prop in E as [E|E]; [left | right; lia].
    apply andb_prop in E. lia.
  - intros [E|E]; apply orb_true_iff; [left | right; lia].
    apply andb_true_iff. lia.
Qed.

Lemma scaleFactor_parent_canvas_witness :
  (0.6 <? scaleFactor (updateSize (Some (200%Z, 100%Z)) 1280 720).1)%float
  = true
  ∧ 240 ≤ (updateSize (Some (200, 100)) 1280 720).2.
Proof.
  pose proof (scaleFactor_parent_canvas 200 100 1280 720 ltac:(lia))
    as (_ & H2 & _ & H4 & _).
  split; [exact H4 | exact H2].
Defined.

End Scale.

(** ** Scene navigation *)

Section Navigation.
Import JS Host.

Lemma next_clicks total k : ∀ p,
  0 < total → isInteractiveMode p = true → 0 ≤ manualScene p < total →
  clicks total (replicate k NextScene) p
  = {| isInteractiveMode := true;
       manualScene := (manualScene p + Z.of_nat k) mod total |}.
Proof.
  induction k as [|k IH]; intros [mode m] Ht Hm Hp; cbn in Hm, Hp; subst mode.
  - cbn. rewrite Z.add_0_r, Z.mod_small by lia. reflexivity.
  - change (clicks total (replicate (S k) NextScene) ?q)
      with (clicks total (replicate k NextScene) (click total NextScene q)).
    cbn [click isInteractiveMode manualScene]. unfold rem.
    rewrite Z.rem_mod_nonneg by lia.
    rewrite IH; cbn [isInteractiveMode manualScene];
      [|done|done|apply Z.mod_pos_bound; lia].
    f_equal. rewrite Zplus_mod_idemp_l. f_equal. lia.
Qed.

(** X15.  On the page reached by any clicks, in interactive mode with a
    non-empty catalog: the Previous button undoes the Next button and the
    Next button undoes the Previous button, as many Next clicks as there are
    entities come back to the same scene, and two clicks on the mode button
    leave the page as it was. *)
Theorem click_round_trips :
  ∀ (totalEntities : Z) (cs : list Click),
    0 < totalEntities →
    let p := clicks totalEntities cs initial in
    isInteractiveMode p = true →
    click totalEntities PreviousScene (click totalEntities NextScene p) = p
    ∧ click totalEntities NextScene (click totalEntities PreviousScene p) = p
    ∧ clicks totalEntities (replicate (Z.to_nat totalEntities) NextScene) p = p
    ∧ click totalEntities ToggleMode (click totalEntities ToggleMode p) = p.
Proof.
  intros total cs Ht p Hmode.
  assert (0 ≤ manualScene p < total) as Hp.
  { subst p. apply clicks_in_range; [done|]. cbn. lia. }
  clearbody p. destruct p as [mode m]. cbn in Hmode, Hp. subst mode.
  split; [|split; [|split]].
  - cbn [click isInteractiveMode manualScene]. f_equal. unfold rem.
    rewrite (Z.rem_mod_nonneg (m + 1)) by lia.
    pose proof (Z.mod_pos_bound (m + 1) total Ht).
    rewrite Z.rem_mod_nonneg by lia.
    destruct (decide (m + 1 = total)) as [E|E].
    + rewrite E, Z_mod_same_full. cbn. rewrite Z.mod_small by lia. lia.
    + rewrite (Z.mod_small (m + 1)) by lia.
      replace (m + 1 - 1 + total) with (m + 1 * total) by lia.
      rewrite Z_mod_plus_full. apply Z.mod_small. lia.
  - cbn [click isInteractiveMode manualScene]. f_equal. unfold rem.
    rewrite (Z.rem_mod_nonneg (m - 1 + total)) by lia.
    pose proof (Z.mod_pos_bound (m - 1 + total) total Ht).
    rewrite Z.rem_mod_nonneg by lia.
    rewrite Zplus_mod_idemp_l.
    replace (m - 1 + total + 1) with (m + 1 * total) by lia.
    rewrite Z_mod_plus_full. apply Z.mod_small. lia.
  - rewrite next_clicks by done. cbn [manualScene]. f_equal.
    rewrite Z2Nat.id by lia.
    replace (m + total) with (m + 1 * total) by lia.
    rewrite Z_mod_plus_full. apply Z.mod_small. lia.
  - reflexivity.
Qed.

Lemma click_round_trips_witness :
  click 3 PreviousScene
    (click 3 NextScene (clicks 3 [ToggleMode; PreviousScene] initial))
  = {| isInteractiveMode := true; manualScene := 2 |}.
Proof.
  exact (proj1 (click_round_trips 3 [ToggleMode; PreviousScene]
                  ltac:(lia) eq_refl)).
Defined.

End Navigation.

(** ** Catalogs too short to play *)

Section ShortCatalog.
Import JS Catalog Playback.

Lemma single_entity_step e now s0 :
  currentEntityIndex s0 = 0 → nextEntityIndex s0 = 1 →
  ∃ s', checkSceneChange [e] now s0 = Some s'
    ∧ ((duration e + 1000 ≤ now - lastSceneChange s0
        ∧ currentEntityIndex s' = 1)
       ∨ (now - lastSceneChange s0 < duration e + 1000
          ∧ currentEntityIndex s' = 0 ∧ nextEntityIndex s' = 1
          ∧ lastSceneChange s' = lastSceneChange s0)).
Proof.
  intros Hc Hn.
  assert (index [e] (currentEntityIndex s0) = Some e) as Hidx
    by (by rewrite Hc).
  unfold checkSceneChange. rewrite Hidx. cbn [mbind option_bind].
  unfold transitionDuration.
  destruct (Z.leb_spec (duration e + 1000) (now - lastSceneChange s0)).
  { eexists. split; [reflexivity|]. left. by split. }
  destruct ((duration e <=? now - lastSceneChange s0)
            && negb (isTransitioning s0)).
  { eexists. split; [reflexivity|]. right. by repeat split. }
  destruct (isTransitioning s0);
    (eexists; split; [reflexivity|]; right; by repeat split).
Qed.

Lemma single_entity_throws e now s :
  currentEntityIndex s = 1 → checkSceneChange [e] now s = None.
Proof. intros Hc. unfold checkSceneChange. by rewrite Hc. Qed.

Lemma single_entity_run e : ∀ ticks s0 s,
  currentEntityIndex s0 = 0 → nextEntityIndex s0 = 1 →
  run [e] ticks s0 = Some s →
  (currentEntityIndex s = 0 ∧ lastSceneChange s = lastSceneChange s0
   ∧ Forall (λ now, now - lastSceneChange s0 < duration e + 1000) ticks)
  ∨ (currentEntityIndex s = 1 ∧ ∀ now, checkSceneChange [e] now s = None).
Proof.
  induction ticks as [|now rest IH]; intros s0 s Hc Hn Hrun.
  { injection Hrun as <-. left. by repeat split. }
  cbn [run] in Hrun.
  destruct (single_entity_step e now s0 Hc Hn)
    as (s' & Hstep & [[Hel Hc']|(Hel & Hc' & Hn' & Hl')]);
    rewrite Hstep in Hrun; cbn [mbind option_bind] in Hrun.
  - destruct rest as [|now' rest].
    + injection Hrun as <-. right. split; [exact Hc'|].
      intros now'. by apply single_entity_throws.
    + cbn [run] in Hrun.
      rewrite (single_entity_throws e now' s' Hc') in Hrun. discriminate.
  - destruct (IH s' s Hc' Hn' Hrun) as [(H1 & H2 & H3)|H]; [left|by right].
    rewrite Hl' in H2, H3. split; [done|]. split; [done|].
    constructor; [lia | done].
Qed.

(** X16.  With an empty catalog the interval callback throws at its first
    tick.  With a catalog of one entity it survives one commit at most: a run
    from mount either has not committed yet, every tick so far being less
    than [duration + 1000] after mount, or it has just committed to index 1,
    where there is no entity, and the callback throws at every later tick. *)
Theorem checkSceneChange_short_catalog :
  (∀ (t0 now : Z) (later : list Z), run [] (now :: later) (mount t0) = None)
  ∧ (∀ (e : CosmicEntity) (t0 : Z) (ticks : list Z) (s : PlaybackState),
       run [e] ticks (mount t0) = Some s →
       (currentEntityIndex s = 0 ∧ lastSceneChange s = t0
        ∧ Forall (λ now, now - t0 < duration e + 1000) ticks)
       ∨ (currentEntityIndex s = 1
          ∧ ∀ now, checkSceneChange [e] now s = None))
  ∧ (∀ (e : CosmicEntity) (t0 now now' : Z) (later : list Z),
       duration e + 1000 ≤ now - t0 →
       (∃ s, run [e] [now] (mount t0) = Some s ∧ currentEntityIndex s = 1)
       ∧ run [e] (now :: now' :: later) (mount t0) = None).
Proof.
  split; [reflexivity|]. split.
  - intros e t0 ticks s Hrun.
    by apply (single_entity_run e ticks (mount t0) s eq_refl eq_refl).
  - intros e t0 now now' later Hnow.
    destruct (single_entity_step e now (mount t0) eq_refl eq_refl)
      as (s' & Hstep & [[_ Hc']|[Hel _]]);
      [|cbn [mount lastSceneChange] in Hel; lia].
    split.
    + exists s'. cbn [run]. rewrite Hstep. by split.
    + cbn [run]. rewrite Hstep. cbn [mbind option_bind].
      by rewrite (single_entity_throws e now' s' Hc').
Qed.

End ShortCatalog.
